(** * Layered INI configuration lookup: [configloader.py]

    A shallow embedding of the class [INIConfigLoader] and of the part of
    Python's [configparser] and [os.path] it calls, followed by the
    properties of the two public operations [get_value] and
    [get_section_values].

    Conventions of the embedding.
    - A Python [str] is a [string] holding its UTF-8 bytes.  The characters
      the program inspects (the path separator, ["%"], ["("], [")"], ["s"])
      are ASCII, so they occur in the bytes exactly where they occur in the
      text, and a [str] is empty exactly when its bytes are.
    - A Python [dict] whose order is never observed is a [gmap].
    - A call that may raise returns a [res]; a method that also updates
      [self] is a computation in the monad [M]. *)

From Stdlib Require Import String Ascii.
From stdpp Require Import base option gmap strings.

Local Open Scope string_scope.

(** ** Exceptions and results *)

(** The exceptions of the module and of the library calls it makes.
    [ReadError] stands for whatever [ConfigParser.read] raises on a file it
    opens but cannot decode or parse ([MissingSectionHeaderError],
    [DuplicateOptionError], [ParsingError], [UnicodeDecodeError], ...); its
    argument only tells such failures apart. *)
Inductive exn : Type :=
| ConfigError (msg : string)
| AssertionError
| IndexError
| KeyError (key : string)
| NoSectionError (section : string)
| NoOptionError (option section : string)
| InterpolationSyntaxError (option section : string)
| InterpolationMissingOptionError (option section reference : string)
| InterpolationDepthError (option section : string)
| ReadError (what : string).

Inductive res (A : Type) : Type :=
| Ok (a : A)
| Raise (e : exn).
Arguments Ok {A} a.
Arguments Raise {A} e.

#[global] Instance exn_eq_dec : EqDecision exn.
Proof. solve_decision. Defined.

#[global] Instance res_eq_dec {A} `{EqDecision A} : EqDecision (res A).
Proof. solve_decision. Defined.

#[global] Instance res_ret : MRet res := fun A a => Ok a.
#[global] Instance res_bind : MBind res := fun A B f m =>
  match m with
  | Ok a => f a
  | Raise e => Raise e
  end.
#[global] Instance res_fmap : FMap res := fun A B f m =>
  match m with
  | Ok a => Ok (f a)
  | Raise e => Raise e
  end.

(** ** Python truthiness of the values the loader tests *)

(** [bool(x)] for [x] a [str] or [None]: [None] and the empty string are
    falsy. *)
Definition truthy (x : option string) : bool :=
  match x with
  | None => false
  | Some EmptyString => false
  | Some (String _ _) => true
  end.

(** The [str] behind a value that has passed a truthiness test. *)
Definition str_of (x : option string) : string := default EmptyString x.

(** ** The model of [configparser.ConfigParser] *)

Module configparser.

(** The state of a parser after [read]: the private dictionaries
    [_sections] (section name to its own options) and [_defaults] (the
    options of the [DEFAULT] section, visible from every section). *)
Record ConfigParser : Type := {
  _sections : gmap string (gmap string string);
  _defaults : gmap string string
}.

(** [ConfigParser()]: no section, no default. *)
Definition new : ConfigParser := {| _sections := ∅; _defaults := ∅ |}.

Definition default_section : string := "DEFAULT".
Definition MAX_INTERPOLATION_DEPTH : nat := 10.

(** [optionxform] is [str.lower].  On the bytes of a [str] this is exact
    for ASCII option names; bytes of other characters are left alone. *)
Definition lower_ascii (c : ascii) : ascii :=
  let n := nat_of_ascii c in
  if (65 <=? n)%nat && (n <=? 90)%nat then ascii_of_nat (n + 32) else c.

Fixpoint optionxform (s : string) : string :=
  match s with
  | EmptyString => EmptyString
  | String c r => String (lower_ascii c) (optionxform r)
  end.

(** [len(parser)]: the sections plus the default section. *)
Definition len (p : ConfigParser) : nat := size (_sections p) + 1.

(** [bool(parser)]: a [MutableMapping] is truthy when its length is not 0. *)
Definition truth_value (p : ConfigParser) : bool := negb (len p =? 0)%nat.

Definition has_section (p : ConfigParser) (section : string) : bool :=
  bool_decide (is_Some (_sections p !! section)).

Definition has_option (p : ConfigParser) (section option : string) : bool :=
  if negb (truthy (Some section)) || bool_decide (section = default_section) then
    bool_decide (is_Some (_defaults p !! optionxform option))
  else
    match _sections p !! section with
    | None => false
    | Some sectiondict =>
        bool_decide (is_Some (sectiondict !! optionxform option))
        || bool_decide (is_Some (_defaults p !! optionxform option))
    end.

(** [_unify_values(section, vars=None)]: the section's own options
    chained in front of the defaults. *)
Definition _unify_values (p : ConfigParser) (section : string)
  : res (gmap string string) :=
  match _sections p !! section with
  | Some sectiondict => Ok (sectiondict ∪ _defaults p)
  | None =>
      if bool_decide (section = default_section) then Ok (_defaults p)
      else Raise (NoSectionError section)
  end.

(** *** [BasicInterpolation] *)

(** ["%" in v]. *)
Fixpoint has_percent (v : string) : bool :=
  match v with
  | EmptyString => false
  | String c r => if Ascii.eqb c "%" then true else has_percent r
  end.

(** Where the scan of [rest] stands: in plain text, just after a ["%"],
    inside the name of ["%(name"], or after its closing [")"]. *)
Inductive scan : Type :=
| Plain
| Percent
| Name (acc : string)
| Closed (name : string).

Section interpolate.
Variables (option section : string) (map : gmap string string).
(** The call [_interpolate_some(..., v, ..., depth + 1)] on a referenced
    value that itself contains ["%"]. *)
Variable deeper : string -> res string.

(** The [while rest:] loop of [_interpolate_some], one character at a
    time.  ["%%"] gives ["%"]; ["%(name)s"] (the pattern
    [%\(([^)]+)\)s]) gives the value of [optionxform(name)] in [map],
    interpolated further when it contains ["%"]; any other use of
    ["%"] is a syntax error. *)
Fixpoint interpolate_loop (st : scan) (rest : string) : res string :=
  match rest with
  | EmptyString =>
      match st with
      | Plain => Ok EmptyString
      | _ => Raise (InterpolationSyntaxError option section)
      end
  | String c r =>
      match st with
      | Plain =>
          if Ascii.eqb c "%" then interpolate_loop Percent r
          else String c <$> interpolate_loop Plain r
      | Percent =>
          if Ascii.eqb c "%" then String "%" <$> interpolate_loop Plain r
          else if Ascii.eqb c "(" then interpolate_loop (Name EmptyString) r
          else Raise (InterpolationSyntaxError option section)
      | Name acc =>
          if Ascii.eqb c ")" then
            match acc with
            | EmptyString => Raise (InterpolationSyntaxError option section)
            | _ => interpolate_loop (Closed acc) r
            end
          else interpolate_loop (Name (acc +:+ String c EmptyString)) r
      | Closed name =>
          if Ascii.eqb c "s" then
            match map !! optionxform name with
            | None =>
                Raise (InterpolationMissingOptionError
                         option section (optionxform name))
            | Some v =>
                v' ← (if has_percent v then deeper v else Ok v);
                String.append v' <$> interpolate_loop Plain r
            end
          else Raise (InterpolationSyntaxError option section)
      end
  end.
End interpolate.

(** [_interpolate_some] with [fuel] levels left before
    [depth > MAX_INTERPOLATION_DEPTH]. *)
Fixpoint _interpolate_some (fuel : nat) (option section : string)
    (map : gmap string string) (rest : string) : res string :=
  match fuel with
  | O => Raise (InterpolationDepthError option section)
  | S fuel' =>
      interpolate_loop option section map
        (_interpolate_some fuel' option section map) Plain rest
  end.

(** [BasicInterpolation.before_get]: the call starts at depth 1. *)
Definition before_get (section option value : string)
    (defaults : gmap string string) : res string :=
  _interpolate_some MAX_INTERPOLATION_DEPTH option section defaults value.

(** [parser.get(section, option)] with [raw=False] and no fallback. *)
Definition get (p : ConfigParser) (section option : string) : res string :=
  d ← _unify_values p section;
  let option := optionxform option in
  match d !! option with
  | None => Raise (NoOptionError option section)
  | Some value => before_get section option value d
  end.

(** [parser.options(section)], as the dictionary whose keys it lists. *)
Definition options (p : ConfigParser) (section : string)
  : res (gmap string string) :=
  match _sections p !! section with
  | None => Raise (NoSectionError section)
  | Some sectiondict => Ok (_defaults p ∪ sectiondict)
  end.

(** *** [SectionProxy], the value of [parser[section]] *)

Definition proxy_options (p : ConfigParser) (name : string)
  : res (gmap string string) :=
  if bool_decide (name = default_section) then Ok (_defaults p)
  else options p name.

Definition proxy_getitem (p : ConfigParser) (name key : string) : res string :=
  if has_option p name key then get p name key else Raise (KeyError key).

(** [dict(parser[name].items())]: every option the proxy lists, with the
    value the proxy gives for it.  Python visits the options in insertion
    order; the [gmap] fixes another order, which shows only in which
    exception is reported when the values of several options raise. *)
Definition proxy_items (p : ConfigParser) (name : string)
  : res (gmap string string) :=
  opts ← proxy_options p name;
  map_fold (fun key _ acc =>
              d ← acc; v ← proxy_getitem p name key; Ok (<[key := v]> d))
           (Ok ∅) opts.

End configparser.

Import configparser.

(** ** The operating system the loader runs on *)

(** What [ConfigParser.read] makes of the text of a file: the parsed
    sections, or an exception.  A file that exists but cannot be opened is
    [Parsed new], since [read] skips it silently. *)
Inductive file : Type :=
| Parsed (parser : ConfigParser)
| Malformed (what : string).

(** [sep] is [os.path.sep].  [files] holds the regular files: a path is a
    key exactly when [os.path.isfile] accepts it. *)
Record OS : Type := {
  sep : ascii;
  files : gmap string file
}.

Definition isfile (os : OS) (path : string) : bool :=
  bool_decide (is_Some (files os !! path)).

(** [parser = ConfigParser(); parser.read(path, encoding="utf-8")]: a path
    that cannot be opened leaves the fresh parser empty. *)
Definition read (os : OS) (path : string) : res ConfigParser :=
  match files os !! path with
  | Some (Parsed parser) => Ok parser
  | Some (Malformed what) => Raise (ReadError what)
  | None => Ok new
  end.

(** ** The class [INIConfigLoader] *)

Record INIConfigLoader : Type := {
  configs_path : string;
  parsers : gmap string ConfigParser;
  config_ext : string;
  default_ext : string
}.

(** A method body: it runs on [self], returns or raises, and leaves
    [self] as it has updated it so far. *)
Definition M (A : Type) : Type := INIConfigLoader -> res A * INIConfigLoader.

Definition ret {A} (a : A) : M A := fun self => (Ok a, self).
Definition raise {A} (e : exn) : M A := fun self => (Raise e, self).
Definition bind {A B} (m : M A) (k : A -> M B) : M B :=
  fun self =>
    match m self with
    | (Ok a, self') => k a self'
    | (Raise e, self') => (Raise e, self')
    end.
Definition attr {A} (field : INIConfigLoader -> A) : M A :=
  fun self => (Ok (field self), self).

Declare Scope method_scope.
Delimit Scope method_scope with method.
Notation "x <- m ;; k" := (bind m (fun x => k))
  (at level 100, m at next level, right associativity) : method_scope.

(** [self.__parsers[config_path] = parser] *)
Definition set_parser (config_path : string) (parser : ConfigParser) : M unit :=
  fun self =>
    (Ok tt, {| configs_path := configs_path self;
               parsers := <[config_path := parser]> (parsers self);
               config_ext := config_ext self;
               default_ext := default_ext self |}).

Definition config_ext_default : string := ".ini".
Definition default_ext_default : string := ".default".

(** [s[-1]], which raises [IndexError] on the empty string. *)
Fixpoint last_char (s : string) : res ascii :=
  match s with
  | EmptyString => Raise IndexError
  | String c EmptyString => Ok c
  | String _ r => last_char r
  end.

Section Loader.
Variable os : OS.

Local Open Scope method_scope.

(** [INIConfigLoader(configs_path, config_ext, default_ext)] *)
Definition __init__ (configs_path config_ext default_ext : string)
  : res INIConfigLoader :=
  c ← last_char configs_path;
  if Ascii.eqb c (sep os) then Raise AssertionError
  else Ok {| configs_path := configs_path;
             parsers := ∅;
             config_ext := config_ext;
             default_ext := default_ext |}.

Definition _get_parser (config_path : string) : M ConfigParser :=
  cached <- attr (fun self => parsers self !! config_path) ;;
  match cached with
  | Some parser =>
      if truth_value parser then ret parser
      else
        match read os config_path with
        | Ok parser => _ <- set_parser config_path parser ;; ret parser
        | Raise e => raise e
        end
  | None =>
      match read os config_path with
      | Ok parser => _ <- set_parser config_path parser ;; ret parser
      | Raise e => raise e
      end
  end.

Definition _find_ini_custom (config_file_name : string) : M (option string) :=
  configs_path <- attr configs_path ;;
  config_ext <- attr config_ext ;;
  let file_name_base :=
    configs_path +:+ String (sep os) EmptyString +:+ config_file_name in
  let custom_path := file_name_base +:+ config_ext in
  if isfile os custom_path then ret (Some custom_path) else ret None.

Definition _find_ini_default (config_file_name : string) : M (option string) :=
  configs_path <- attr configs_path ;;
  default_ext <- attr default_ext ;;
  config_ext <- attr config_ext ;;
  let file_name_base :=
    configs_path +:+ String (sep os) EmptyString +:+ config_file_name in
  let default_path := file_name_base +:+ default_ext +:+ config_ext in
  if isfile os default_path then ret (Some default_path) else ret None.

Definition _find_ini_value (config_path section key : string)
  : M (option string) :=
  parser <- _get_parser config_path ;;
  match get parser section key with
  | Ok value => ret (Some value)
  | Raise (NoOptionError _ _) => ret None
  | Raise (NoSectionError _) => ret None
  | Raise e => raise e
  end.

Definition _get_ini_section (config_path section : string)
  : M (gmap string string) :=
  parser <- _get_parser config_path ;;
  if has_section parser section then
    match proxy_items parser section with
    | Ok items => ret items
    | Raise e => raise e
    end
  else ret ∅.

(** The messages of the [ConfigError]s the two operations raise; ["034"] is
    the double quote. *)
Definition quoted (s : string) : string :=
  String "034" (s +:+ String "034" EmptyString).

Definition default_not_found (config_file_name : string) : exn :=
  ConfigError ("Default ini configuration file " +:+ quoted config_file_name
               +:+ " not found!").

Definition value_not_found (config_file_name section key : string) : exn :=
  ConfigError ("Value for key " +:+ quoted key +:+ " in section "
               +:+ quoted section +:+ " not found in ini configuration "
               +:+ quoted config_file_name +:+ "!").

Definition section_not_found (config_file_name section : string) : exn :=
  ConfigError ("Section " +:+ quoted section
               +:+ " not found in ini configuration "
               +:+ quoted config_file_name +:+ "!").

Definition get_value (config_file_name section key : string) : M string :=
  default_conf <- _find_ini_default config_file_name ;;
  custom_conf <- _find_ini_custom config_file_name ;;
  value <-
    (if truthy custom_conf then
       value <- _find_ini_value (str_of custom_conf) section key ;;
       if negb (truthy value) && truthy default_conf then
         _find_ini_value (str_of default_conf) section key
       else ret value
     else if truthy default_conf then
       _find_ini_value (str_of default_conf) section key
     else ret None) ;;
  if negb (truthy value) then
    if negb (truthy default_conf) then
      raise (default_not_found config_file_name)
    else raise (value_not_found config_file_name section key)
  else ret (str_of value).

(** [bool(result)] for a [dict]. *)
Definition truthy_dict (d : gmap string string) : bool :=
  negb (size d =? 0)%nat.

Definition get_section_values (config_file_name section : string)
  : M (gmap string string) :=
  default_conf <- _find_ini_default config_file_name ;;
  custom_conf <- _find_ini_custom config_file_name ;;
  let result : gmap string string := ∅ in
  result <-
    (if truthy default_conf then
       d <- _get_ini_section (str_of default_conf) section ;;
       ret (d ∪ result)
     else ret result) ;;
  result <-
    (if truthy custom_conf then
       d <- _get_ini_section (str_of custom_conf) section ;;
       ret (d ∪ result)
     else ret result) ;;
  if negb (truthy_dict result) then
    if negb (truthy default_conf) then
      raise (default_not_found config_file_name)
    else raise (section_not_found config_file_name section)
  else ret result.

End Loader.

(** ** Views used to state the properties *)

(** The exceptions [configparser] raises, as opposed to the loader's own
    [ConfigError] and to the failures of [__init__]. *)
Definition from_library (e : exn) : Prop :=
  match e with
  | ConfigError _ | AssertionError | IndexError => False
  | _ => True
  end.

(** What one layer holds for [(section, key)]: the value [parser.get]
    returns, [None] where it raises [NoOptionError] or [NoSectionError]
    (the [try]/[except] of [_find_ini_value]). *)
Definition parser_value (parser : ConfigParser) (section key : string)
  : res (option string) :=
  match get parser section key with
  | Ok value => Ok (Some value)
  | Raise (NoOptionError _ _) => Ok None
  | Raise (NoSectionError _) => Ok None
  | Raise e => Raise e
  end.

(** What one layer holds for [section]: the dictionary of its items, empty
    when the parser has no such section (the body of [_get_ini_section]). *)
Definition parser_section (parser : ConfigParser) (section : string)
  : res (gmap string string) :=
  if has_section parser section then proxy_items parser section else Ok ∅.

(** The lookups of the two public operations, over an arbitrary way [view]
    of obtaining the parser of a path and over the two located paths. *)
Section Lookup.
Variable view : string -> res ConfigParser.
Variables default_conf custom_conf : option string.

Definition layer_value (config_path section key : string)
  : res (option string) :=
  parser ← view config_path; parser_value parser section key.

Definition layer_section (config_path section : string)
  : res (gmap string string) :=
  parser ← view config_path; parser_section parser section.

Definition lookup_value (config_file_name section key : string) : res string :=
  value ←
    (if truthy custom_conf then
       value ← layer_value (str_of custom_conf) section key;
       if negb (truthy value) && truthy default_conf then
         layer_value (str_of default_conf) section key
       else Ok value
     else if truthy default_conf then
       layer_value (str_of default_conf) section key
     else Ok None);
  if negb (truthy value) then
    if negb (truthy default_conf) then
      Raise (default_not_found config_file_name)
    else Raise (value_not_found config_file_name section key)
  else Ok (str_of value).

Definition lookup_section (config_file_name section : string)
  : res (gmap string string) :=
  result ←
    (if truthy default_conf then
       d ← layer_section (str_of default_conf) section; Ok (d ∪ (∅ : gmap string string))
     else Ok ∅);
  result ←
    (if truthy custom_conf then
       d ← layer_section (str_of custom_conf) section; Ok (d ∪ result)
     else Ok result);
  if negb (truthy_dict result) then
    if negb (truthy default_conf) then
      Raise (default_not_found config_file_name)
    else Raise (section_not_found config_file_name section)
  else Ok result.
End Lookup.

Section Views.
Variable os : OS.

(** The path [_find_ini_custom] tests, and the one [_find_ini_default]
    tests. *)
Definition custom_path (self : INIConfigLoader) (config_file_name : string)
  : string :=
  (configs_path self +:+ String (sep os) EmptyString +:+ config_file_name)
  +:+ config_ext self.

Definition default_path (self : INIConfigLoader) (config_file_name : string)
  : string :=
  (configs_path self +:+ String (sep os) EmptyString +:+ config_file_name)
  +:+ default_ext self +:+ config_ext self.

(** A path when a file is there, nothing otherwise. *)
Definition locate (path : string) : option string :=
  if isfile os path then Some path else None.

(** The parser [_get_parser] hands out for a path in the state [self]:
    the cached one, or the one read now. *)
Definition seen (self : INIConfigLoader) (config_path : string)
  : res ConfigParser :=
  match parsers self !! config_path with
  | Some parser => if truth_value parser then Ok parser else read os config_path
  | None => read os config_path
  end.

(** Two states of a loader that no method can tell apart: the same
    settings, and the same parser for every path. *)
Definition same_view (self self' : INIConfigLoader) : Prop :=
  configs_path self = configs_path self'
  /\ config_ext self = config_ext self'
  /\ default_ext self = default_ext self'
  /\ forall config_path, seen self config_path = seen self' config_path.

(** The cache holds, for each path it knows, what reading the path gives:
    the backing resources have not changed since they were parsed. *)
Definition coherent (self : INIConfigLoader) : Prop :=
  forall config_path parser,
    parsers self !! config_path = Some parser ->
    read os config_path = Ok parser.

(** The loader with its cache emptied. *)
Definition uncached (self : INIConfigLoader) : INIConfigLoader :=
  {| configs_path := configs_path self;
     parsers := ∅;
     config_ext := config_ext self;
     default_ext := default_ext self |}.

(** What the backing resource at a path holds. *)
Definition resource_value (config_path section key : string)
  : res (option string) :=
  layer_value (read os) config_path section key.

Definition resource_section (config_path section : string)
  : res (gmap string string) :=
  layer_section (read os) config_path section.

(** The custom layer's contribution to a lookup: nothing when there is
    no custom resource. *)
Definition custom_value (self : INIConfigLoader)
    (config_file_name section key : string) : res (option string) :=
  match locate (custom_path self config_file_name) with
  | Some path => resource_value path section key
  | None => Ok None
  end.

Definition custom_section (self : INIConfigLoader)
    (config_file_name section : string) : res (gmap string string) :=
  match locate (custom_path self config_file_name) with
  | Some path => resource_section path section
  | None => Ok ∅
  end.

(** A call of one of the two public operations, and its answer. *)
Inductive request : Type :=
| GetValue (config_file_name section key : string)
| GetSectionValues (config_file_name section : string).

Inductive answer : Type :=
| Value (value : string)
| SectionValues (values : gmap string string).

Definition perform (r : request) : M answer :=
  match r with
  | GetValue n s k => bind (get_value os n s k) (fun v => ret (Value v))
  | GetSectionValues n s =>
      bind (get_section_values os n s) (fun d => ret (SectionValues d))
  end.

(** The state of the loader after a sequence of calls, whatever they
    returned or raised. *)
Fixpoint after (rs : list request) (self : INIConfigLoader) : INIConfigLoader :=
  match rs with
  | [] => self
  | r :: rs' => after rs' (snd (perform r self))
  end.

(** The answer to a call when [view] gives the parser of each path. *)
Definition answer_for (view : string -> res ConfigParser)
    (self : INIConfigLoader) (r : request) : res answer :=
  match r with
  | GetValue n s k =>
      Value <$> lookup_value view
                  (locate (default_path self n)) (locate (custom_path self n))
                  n s k
  | GetSectionValues n s =>
      SectionValues <$> lookup_section view
                  (locate (default_path self n)) (locate (custom_path self n))
                  n s
  end.

(** The same operations without any cache: every lookup reads its
    resource. *)
Definition perform_uncached (self : INIConfigLoader) (r : request) : res answer :=
  answer_for (read os) self r.

(** A method that only ever adds parsers to the cache. *)
Definition keeps_cache {A} (m : M A) : Prop :=
  forall self, parsers self ⊆ parsers (m self).2.
End Views.

(** ** A concrete deployment *)

(** The directory [conf] on a POSIX system:
    - [app.default.ini] is [[server] host=localhost port=8080] and
      [app.ini] is [[server] port=];
    - [web.default.ini] is [[server] port=8080] and [web.ini] is
      [[server] port=9090];
    - [solo.ini] is [[server] port=9090], with no [solo.default.ini];
    - [base.default.ini] is [[server] host=localhost port=] followed by an
      empty section [[empty]], with no [base.ini]. *)
Module Example.
Definition one_section (name : string) (options : gmap string string)
  : ConfigParser :=
  {| _sections := {[ name := options ]}; _defaults := ∅ |}.

Definition app_default : ConfigParser :=
  one_section "server" {[ "host" := "localhost"; "port" := "8080" ]}.
Definition app_custom : ConfigParser :=
  one_section "server" {[ "port" := EmptyString ]}.
Definition web_default : ConfigParser :=
  one_section "server" {[ "port" := "8080" ]}.
Definition web_custom : ConfigParser :=
  one_section "server" {[ "port" := "9090" ]}.
Definition solo_custom : ConfigParser :=
  one_section "server" {[ "port" := "9090" ]}.
Definition base_default : ConfigParser :=
  {| _sections :=
       {[ "server" := {[ "host" := "localhost"; "port" := EmptyString ]};
          "empty" := ∅ ]};
     _defaults := ∅ |}.

Definition posix : OS :=
  {| sep := "/";
     files := {[ "conf/app.default.ini" := Parsed app_default;
                 "conf/app.ini" := Parsed app_custom;
                 "conf/web.default.ini" := Parsed web_default;
                 "conf/web.ini" := Parsed web_custom;
                 "conf/solo.ini" := Parsed solo_custom;
                 "conf/base.default.ini" := Parsed base_default ]} |}.

(** [INIConfigLoader("conf")], as [__init__] builds it. *)
Definition loader : INIConfigLoader :=
  {| configs_path := "conf";
     parsers := ∅;
     config_ext := config_ext_default;
     default_ext := default_ext_default |}.
End Example.

(** ** Further views and deployments *)

(** The exceptions of [BasicInterpolation], and the failures of [read]. *)
Definition interpolation_error (e : exn) : Prop :=
  match e with
  | InterpolationSyntaxError _ _
  | InterpolationMissingOptionError _ _ _
  | InterpolationDepthError _ _ => True
  | _ => False
  end.

Definition read_error (e : exn) : Prop :=
  match e with
  | ReadError _ => True
  | _ => False
  end.

(** How the parser cache may differ between two states of a loader on
    [os]: an entry either is as it was, or is new, sits at a path that
    satisfies [touched], and holds what reading that path gives. *)
Definition gains (os : OS) (touched : string -> Prop)
    (self self' : INIConfigLoader) : Prop :=
  forall q,
    parsers self' !! q = parsers self !! q
    \/ (touched q /\ parsers self !! q = None
        /\ exists parser,
             read os q = Ok parser /\ parsers self' !! q = Some parser).

(** The paths of the two files of a name that are there. *)
Definition file_of (os : OS) (self : INIConfigLoader) (n : string)
  : string -> Prop :=
  fun q =>
    isfile os q = true
    /\ (q = custom_path os self n \/ q = default_path os self n).

(** No stored section is called [DEFAULT]: [read] files the options under
    a [[DEFAULT]] header in [_defaults] and never in [_sections]. *)
Definition no_DEFAULT_section (parser : ConfigParser) : Prop :=
  _sections parser !! default_section = None.

(** The value the two layers give for [(section, key)], before
    [get_value] decides between returning and raising: the first part of
    [lookup_value]. *)
Definition layered_value (view : string -> res ConfigParser)
    (default_conf custom_conf : option string) (section key : string)
  : res (option string) :=
  if truthy custom_conf then
    value ← layer_value view (str_of custom_conf) section key;
    if negb (truthy value) && truthy default_conf then
      layer_value view (str_of default_conf) section key
    else Ok value
  else if truthy default_conf then
    layer_value view (str_of default_conf) section key
  else Ok None.

(** The [conf] directory with two files that do not parse: for [app] the
    custom file, for [web] the default file. *)
Module Broken.
Definition posix : OS :=
  {| sep := "/";
     files := {[ "conf/app.default.ini" := Parsed Example.app_default;
                 "conf/app.ini" := Malformed "no section header";
                 "conf/web.default.ini" := Malformed "no section header";
                 "conf/web.ini" := Parsed Example.web_custom ]} |}.
End Broken.

(** The [conf] directory of [Example] after [app.default.ini] has been
    edited to [[server] host=localhost port=9999]. *)
Module Edited.
Definition app_default : ConfigParser :=
  Example.one_section "server" {[ "host" := "localhost"; "port" := "9999" ]}.

Definition posix : OS :=
  {| sep := "/";
     files := <[ "conf/app.default.ini" := Parsed app_default ]>
                (files Example.posix) |}.
End Edited.

(** A file with a [[DEFAULT]] section: [[DEFAULT] port=80 scheme=http],
    then [[server] port=8080 url=%(scheme)s://localhost]. *)
Module Defaults.
Definition site_default : ConfigParser :=
  {| _sections :=
       {[ "server" := {[ "port" := "8080"; "url" := "%(scheme)s://localhost" ]} ]};
     _defaults := {[ "port" := "80"; "scheme" := "http" ]} |}.

Definition posix : OS :=
  {| sep := "/";
     files := {[ "conf/site.default.ini" := Parsed site_default ]} |}.
End Defaults.

(** ** Running the methods *)

Section Running.
Variable os : OS.

Lemma truth_value_true (parser : ConfigParser) : truth_value parser = true.
Proof.
  unfold truth_value, len. apply negb_true_iff, Nat.eqb_neq. lia.
Qed.

Lemma seen_lookup (self : INIConfigLoader) (config_path : string) :
  seen os self config_path =
    match parsers self !! config_path with
    | Some parser => Ok parser
    | None => read os config_path
    end.
Proof.
  unfold seen. destruct (parsers self !! config_path) as [parser|]; [|done].
  by rewrite truth_value_true.
Qed.

Lemma same_view_refl (self : INIConfigLoader) : same_view os self self.
Proof. by repeat split. Qed.


Lemma same_view_trans (self1 self2 self3 : INIConfigLoader) :
  same_view os self1 self2 -> same_view os self2 self3 ->
  same_view os self1 self3.
Proof.
  intros (? & ? & ? & H12) (? & ? & ? & H23).
  repeat split; [congruence..|]. intros p. by rewrite H12.
Qed.

Lemma coherent_seen (self : INIConfigLoader) :
  coherent os self <-> forall config_path, seen os self config_path = read os config_path.
Proof.
  split.
  - intros Hc p. rewrite seen_lookup.
    destruct (parsers self !! p) as [parser|] eqn:E; [|done].
    symmetry. by apply Hc.
  - intros Hs p parser E. specialize (Hs p).
    rewrite seen_lookup, E in Hs. done.
Qed.

Lemma coherent_same_view (self self' : INIConfigLoader) :
  same_view os self self' -> coherent os self -> coherent os self'.
Proof.
  intros (_ & _ & _ & Hv) Hc. apply coherent_seen. intros p.
  rewrite <- Hv. by apply coherent_seen.
Qed.

Lemma coherent_uncached (self : INIConfigLoader) : coherent os (uncached self).
Proof. intros p parser. cbn. by rewrite lookup_empty. Qed.


Lemma custom_path_same_view (self self' : INIConfigLoader) (n : string) :
  same_view os self self' -> custom_path os self n = custom_path os self' n.
Proof. intros (H1 & H2 & H3 & _). unfold custom_path. by rewrite H1, H2. Qed.

Lemma default_path_same_view (self self' : INIConfigLoader) (n : string) :
  same_view os self self' -> default_path os self n = default_path os self' n.
Proof. intros (H1 & H2 & H3 & _). unfold default_path. by rewrite H1, H2, H3. Qed.

Lemma layer_value_ext (view view' : string -> res ConfigParser) p s k :
  (forall q, view q = view' q) -> layer_value view p s k = layer_value view' p s k.
Proof. intros H. unfold layer_value. by rewrite H. Qed.

Lemma layer_section_ext (view view' : string -> res ConfigParser) p s :
  (forall q, view q = view' q) -> layer_section view p s = layer_section view' p s.
Proof. intros H. unfold layer_section. by rewrite H. Qed.

Lemma lookup_value_ext (view view' : string -> res ConfigParser) d c n s k :
  (forall q, view q = view' q) ->
  lookup_value view d c n s k = lookup_value view' d c n s k.
Proof.
  intros H. unfold lookup_value.
  by rewrite !(layer_value_ext view view' _ _ _ H).
Qed.

Lemma lookup_section_ext (view view' : string -> res ConfigParser) d c n s :
  (forall q, view q = view' q) ->
  lookup_section view d c n s = lookup_section view' d c n s.
Proof.
  intros H. unfold lookup_section.
  by rewrite !(layer_section_ext view view' _ _ H).
Qed.

Lemma _find_ini_custom_run (self : INIConfigLoader) (n : string) :
  _find_ini_custom os n self = (Ok (locate os (custom_path os self n)), self).
Proof.
  unfold _find_ini_custom, locate, custom_path, bind, attr, ret. cbn.
  by destruct (isfile os _).
Qed.

Lemma _find_ini_default_run (self : INIConfigLoader) (n : string) :
  _find_ini_default os n self = (Ok (locate os (default_path os self n)), self).
Proof.
  unfold _find_ini_default, locate, default_path, bind, attr, ret. cbn.
  by destruct (isfile os _).
Qed.

Lemma _get_parser_run (self : INIConfigLoader) (p : string) :
  exists self',
    _get_parser os p self = (seen os self p, self') /\ same_view os self self'.
Proof.
  unfold _get_parser, bind, attr. rewrite seen_lookup.
  destruct (parsers self !! p) as [parser|] eqn:E.
  - rewrite truth_value_true. exists self. split; [done | apply same_view_refl].
  - destruct (read os p) as [parser|e] eqn:R.
    + eexists. split; [reflexivity|]. repeat split. intros q.
      rewrite !seen_lookup. cbn.
      destruct (decide (p = q)) as [<-|Hne].
      * by rewrite lookup_insert_eq, E.
      * by rewrite lookup_insert_ne.
    + exists self. split; [done | apply same_view_refl].
Qed.

Lemma _find_ini_value_run (self : INIConfigLoader) (p s k : string) :
  exists self',
    _find_ini_value os p s k self = (layer_value (seen os self) p s k, self')
    /\ same_view os self self'.
Proof.
  destruct (_get_parser_run self p) as (self' & Hrun & Hv).
  exists self'. split; [|done].
  unfold _find_ini_value, bind, layer_value, parser_value. rewrite Hrun.
  destruct (seen os self p) as [parser|e]; [|done]. cbn.
  destruct (get parser s k) as [v|[]]; done.
Qed.

Lemma _get_ini_section_run (self : INIConfigLoader) (p s : string) :
  exists self',
    _get_ini_section os p s self = (layer_section (seen os self) p s, self')
    /\ same_view os self self'.
Proof.
  destruct (_get_parser_run self p) as (self' & Hrun & Hv).
  exists self'. split; [|done].
  unfold _get_ini_section, bind, layer_section, parser_section. rewrite Hrun.
  destruct (seen os self p) as [parser|e]; [|done]. cbn.
  destruct (has_section parser s); [|done].
  by destruct (proxy_items parser s).
Qed.

End Running.

Section Operations.
Variable os : OS.

Local Ltac finish self' :=
  exists self'; split;
  [ cbn; repeat (match goal with
                 | |- context [truthy ?x] => destruct (truthy x)
                 | |- context [truthy_dict ?x] => destruct (truthy_dict x)
                 end; cbn); reflexivity
  | eauto using same_view_refl, same_view_trans ].

(** A call of [get_value] returns or raises what [lookup_value] gives on
    the parsers the loader sees, and leaves a state no method can tell
    from the one it started in. *)
Lemma get_value_run (self : INIConfigLoader) (n s k : string) :
  exists self',
    get_value os n s k self =
      (lookup_value (seen os self)
         (locate os (default_path os self n)) (locate os (custom_path os self n))
         n s k, self')
    /\ same_view os self self'.
Proof.
  unfold get_value, bind.
  rewrite _find_ini_default_run, _find_ini_custom_run.
  set (d := locate os (default_path os self n)).
  set (c := locate os (custom_path os self n)).
  unfold lookup_value.
  destruct (truthy c).
  - destruct (_find_ini_value_run os self (str_of c) s k) as (s1 & -> & V1).
    destruct (layer_value (seen os self) (str_of c) s k) as [v|e];
      [|finish s1].
    cbn. destruct (negb (truthy v) && truthy d); [|finish s1].
    destruct (_find_ini_value_run os s1 (str_of d) s k) as (s2 & -> & V2).
    rewrite (layer_value_ext (seen os s1) (seen os self))
      by (intros q; symmetry; apply V1).
    destruct (layer_value (seen os self) (str_of d) s k) as [v2|e]; finish s2.
  - destruct (truthy d) eqn:Ed.
    + destruct (_find_ini_value_run os self (str_of d) s k) as (s1 & -> & V1).
      destruct (layer_value (seen os self) (str_of d) s k) as [v|e].
      * exists s1. split; [|done]. cbn. by destruct (truthy v).
      * finish s1.
    + finish self.
Qed.

Lemma get_section_values_run (self : INIConfigLoader) (n s : string) :
  exists self',
    get_section_values os n s self =
      (lookup_section (seen os self)
         (locate os (default_path os self n)) (locate os (custom_path os self n))
         n s, self')
    /\ same_view os self self'.
Proof.
  unfold get_section_values, bind.
  rewrite _find_ini_default_run, _find_ini_custom_run.
  set (d := locate os (default_path os self n)).
  set (c := locate os (custom_path os self n)).
  unfold lookup_section.
  destruct (truthy d) eqn:Ed.
  - destruct (_get_ini_section_run os self (str_of d) s) as (s1 & -> & V1).
    destruct (layer_section (seen os self) (str_of d) s) as [m|e];
      [|finish s1].
    cbn. destruct (truthy c); [|finish s1].
    destruct (_get_ini_section_run os s1 (str_of c) s) as (s2 & -> & V2).
    rewrite (layer_section_ext (seen os s1) (seen os self))
      by (intros q; symmetry; apply V1).
    destruct (layer_section (seen os self) (str_of c) s) as [m2|e]; finish s2.
  - cbn. destruct (truthy c); [|finish self].
    destruct (_get_ini_section_run os self (str_of c) s) as (s2 & -> & V2).
    destruct (layer_section (seen os self) (str_of c) s) as [m2|e]; finish s2.
Qed.

End Operations.

(** ** Facts shared by the properties *)

Section Facts.
Variable os : OS.

Lemma truthy_path (a r e : string) (c : ascii) :
  truthy (Some ((a +:+ String c r) +:+ e)) = true.
Proof. by destruct a. Qed.


Lemma truthy_str_of (x : option string) :
  truthy x = true -> x = Some (str_of x) /\ str_of x <> EmptyString.
Proof. by destruct x as [[|c v]|]. Qed.

Lemma locate_Some (path p : string) :
  locate os path = Some p -> p = path /\ isfile os path = true.
Proof. unfold locate. destruct (isfile os path); naive_solver. Qed.


(** A located path is never the empty string: it holds the separator. *)
Lemma truthy_custom (self : INIConfigLoader) (n p : string) :
  locate os (custom_path os self n) = Some p -> truthy (Some p) = true.
Proof. intros [-> _]%locate_Some. apply truthy_path. Qed.

Lemma truthy_default (self : INIConfigLoader) (n p : string) :
  locate os (default_path os self n) = Some p -> truthy (Some p) = true.
Proof. intros [-> _]%locate_Some. apply truthy_path. Qed.

Lemma truthy_dict_empty (d : gmap string string) :
  truthy_dict d = false <-> d = ∅.
Proof.
  unfold truthy_dict. rewrite negb_false_iff, Nat.eqb_eq. apply map_size_empty_iff.
Qed.

Lemma union_empty_iff (m1 m2 : gmap string string) :
  m1 ∪ m2 = ∅ <-> m1 = ∅ /\ m2 = ∅.
Proof.
  split.
  - intros H. assert (m1 = ∅) as -> by (by eapply map_positive_l).
    by rewrite (left_id_L ∅ (∪)) in H.
  - intros [-> ->]. apply (left_id_L ∅ (∪)).
Qed.

Lemma truthy_dict_decide (d : gmap string string) :
  truthy_dict d = negb (bool_decide (d = ∅)).
Proof.
  case_bool_decide as E.
  - by apply truthy_dict_empty.
  - apply not_false_iff_true. by rewrite truthy_dict_empty.
Qed.

(** With a coherent cache the operations answer as if every lookup read
    its resource. *)
Lemma get_value_coherent (self : INIConfigLoader) (n s k : string) :
  coherent os self ->
  (get_value os n s k self).1 =
    lookup_value (read os)
      (locate os (default_path os self n)) (locate os (custom_path os self n))
      n s k.
Proof.
  intros Hc. destruct (get_value_run os self n s k) as (self' & -> & _).
  cbn. apply lookup_value_ext. by apply coherent_seen.
Qed.

Lemma get_section_values_coherent (self : INIConfigLoader) (n s : string) :
  coherent os self ->
  (get_section_values os n s self).1 =
    lookup_section (read os)
      (locate os (default_path os self n)) (locate os (custom_path os self n))
      n s.
Proof.
  intros Hc. destruct (get_section_values_run os self n s) as (self' & -> & _).
  cbn. apply lookup_section_ext. by apply coherent_seen.
Qed.

(** A loader fresh from [__init__] has a coherent cache, and calls keep it
    coherent: every state a loader reaches over unchanged files is. *)
Lemma init_coherent (configs_path config_ext default_ext : string)
    (self : INIConfigLoader) :
  __init__ os configs_path config_ext default_ext = Ok self -> coherent os self.
Proof.
  unfold __init__. destruct (last_char configs_path) as [c|]; cbn; [|done].
  destruct (Ascii.eqb c (sep os)); [done|].
  intros [= <-] p parser. cbn. by rewrite lookup_empty.
Qed.

End Facts.

Lemma example_loader_coherent : coherent Example.posix Example.loader.
Proof. apply (coherent_uncached Example.posix Example.loader). Qed.

(** ** The properties of the two operations *)

(** C1.  When both resources of a name exist, the custom one holds the empty
    string for [(section, key)] and the default one holds a non-empty value,
    [get_value] returns the default's value: an empty custom value counts as
    absent and the lookup falls through to the default layer. *)
Theorem get_value_empty_custom_falls_through
    (os : OS) (self : INIConfigLoader) (n s k pc pd vd : string) :
  coherent os self ->
  locate os (custom_path os self n) = Some pc ->
  locate os (default_path os self n) = Some pd ->
  resource_value os pc s k = Ok (Some EmptyString) ->
  resource_value os pd s k = Ok (Some vd) ->
  vd <> EmptyString ->
  (get_value os n s k self).1 = Ok vd.
Proof.
  intros Hc Hpc Hpd Hvc Hvd Hne.
  rewrite get_value_coherent by done. unfold lookup_value.
  rewrite Hpc, Hpd, (truthy_custom _ _ _ _ Hpc), (truthy_default _ _ _ _ Hpd).
  cbn. unfold resource_value in Hvc, Hvd. rewrite Hvc. cbn. rewrite Hvd.
  by destruct vd.
Qed.

Lemma get_value_empty_custom_falls_through_witness :
  (get_value Example.posix "app" "server" "port" Example.loader).1 = Ok "8080".
Proof.
  apply (get_value_empty_custom_falls_through
           Example.posix Example.loader "app" "server" "port"
           "conf/app.ini" "conf/app.default.ini" "8080").
  - exact example_loader_coherent.
  - by vm_compute.
  - by vm_compute.
  - by vm_compute.
  - by vm_compute.
  - discriminate.
Defined.

(** C2.  When both resources of a name exist, [get_section_values] lays the
    custom section over the default one key by key, with no test on the
    values: the call returns the union in which custom entries win (and
    raises the missing-section error when that union is empty).  So a key the
    custom section maps to the empty string and the default section maps to a
    non-empty value is mapped to the empty string in the result. *)
Theorem get_section_values_overlay
    (os : OS) (self : INIConfigLoader) (n s pc pd : string)
    (mc md : gmap string string) :
  coherent os self ->
  locate os (custom_path os self n) = Some pc ->
  locate os (default_path os self n) = Some pd ->
  resource_section os pc s = Ok mc ->
  resource_section os pd s = Ok md ->
  (get_section_values os n s self).1 =
    (if bool_decide (mc ∪ md = ∅) then Raise (section_not_found n s)
     else Ok (mc ∪ md))
  /\ forall k vd,
       mc !! k = Some EmptyString -> md !! k = Some vd -> vd <> EmptyString ->
       exists result,
         (get_section_values os n s self).1 = Ok result
         /\ result !! k = Some EmptyString.
Proof.
  intros Hc Hpc Hpd Hmc Hmd.
  assert ((get_section_values os n s self).1 =
            (if bool_decide (mc ∪ md = ∅) then Raise (section_not_found n s)
             else Ok (mc ∪ md))) as Hrun.
  { rewrite get_section_values_coherent by done. unfold lookup_section.
    rewrite Hpc, Hpd, (truthy_custom _ _ _ _ Hpc), (truthy_default _ _ _ _ Hpd).
    cbn. unfold resource_section in Hmc, Hmd. rewrite Hmd. cbn. rewrite Hmc. cbn.
    rewrite (right_id_L ∅ (∪) md), truthy_dict_decide.
    by case_bool_decide. }
  split; [done|].
  intros k vd Hk _ _. exists (mc ∪ md). split.
  - rewrite Hrun. case_bool_decide as E; [|done].
    apply (f_equal (fun m => m !! k)) in E.
    rewrite lookup_empty in E.
    by rewrite (lookup_union_Some_l mc md k _ Hk) in E.
  - by apply lookup_union_Some_l.
Qed.

Lemma get_section_values_overlay_witness :
  (get_section_values Example.posix "app" "server" Example.loader).1 =
    Ok {[ "host" := "localhost"; "port" := EmptyString ]}
  /\ exists result,
       (get_section_values Example.posix "app" "server" Example.loader).1 = Ok result
       /\ result !! "port" = Some EmptyString.
Proof.
  destruct (get_section_values_overlay
              Example.posix Example.loader "app" "server"
              "conf/app.ini" "conf/app.default.ini"
              {[ "port" := EmptyString ]}
              {[ "host" := "localhost"; "port" := "8080" ]}) as [Hrun Hkey].
  - exact example_loader_coherent.
  - by vm_compute.
  - by vm_compute.
  - by vm_compute.
  - by vm_compute.
  - split.
    + rewrite Hrun. by vm_compute.
    + apply (Hkey "port" "8080"); [by vm_compute | by vm_compute | discriminate].
Defined.

(** C3, as stated, fails: with no default resource a custom resource alone
    does satisfy a request.  [conf/solo.ini] exists, [conf/solo.default.ini]
    does not, and both operations return what the custom resource holds. *)
Lemma custom_alone_answers :
  locate Example.posix (default_path Example.posix Example.loader "solo") = None
  /\ (get_value Example.posix "solo" "server" "port" Example.loader).1 = Ok "9090"
  /\ (get_section_values Example.posix "solo" "server" Example.loader).1 =
       Ok {[ "port" := "9090" ]}
  /\ ~ (forall os self n s k,
          coherent os self ->
          locate os (default_path os self n) = None ->
          (get_value os n s k self).1 = Raise (default_not_found n)
          /\ (get_section_values os n s self).1 = Raise (default_not_found n)).
Proof.
  pose proof example_loader_coherent as Hc.
  split; [by vm_compute|]. split; [by vm_compute|]. split; [by vm_compute|].
  intros H.
  destruct (H Example.posix Example.loader "solo" "server" "port" Hc) as [Hv _];
    [by vm_compute|].
  vm_compute in Hv. discriminate Hv.
Qed.

(** C3, amended.  When the default resource of a name does not exist,
    [get_value] raises the missing-default error exactly when the custom
    layer gives no non-empty value for [(section, key)] (no custom resource,
    no such key, or an empty value) and otherwise returns the custom value;
    [get_section_values] raises the missing-default error exactly when the
    custom layer gives no entry for the section (no custom resource, no such
    section, or an empty one) and otherwise returns the custom section. *)
Theorem missing_default_unless_custom_answers
    (os : OS) (self : INIConfigLoader) (n s k : string) :
  coherent os self ->
  locate os (default_path os self n) = None ->
  (forall cv,
     custom_value os self n s k = Ok cv ->
     (get_value os n s k self).1 =
       (if truthy cv then Ok (str_of cv) else Raise (default_not_found n)))
  /\ (forall cm,
        custom_section os self n s = Ok cm ->
        (get_section_values os n s self).1 =
          (if bool_decide (cm = ∅) then Raise (default_not_found n) else Ok cm)).
Proof.
  intros Hc Hpd. split.
  - intros cv Hcv. rewrite get_value_coherent by done. unfold lookup_value.
    rewrite Hpd. unfold custom_value in Hcv.
    destruct (locate os (custom_path os self n)) as [pc|] eqn:Hpc.
    + rewrite (truthy_custom _ _ _ _ Hpc). cbn.
      unfold resource_value in Hcv. rewrite Hcv.
      by destruct cv as [[|c v]|].
    + assert (cv = None) as -> by congruence. reflexivity.
  - intros cm Hcm. rewrite get_section_values_coherent by done.
    unfold lookup_section. rewrite Hpd. unfold custom_section in Hcm.
    destruct (locate os (custom_path os self n)) as [pc|] eqn:Hpc.
    + rewrite (truthy_custom _ _ _ _ Hpc). cbn.
      unfold resource_section in Hcm. rewrite Hcm. cbn.
      rewrite (right_id_L ∅ (∪) cm), truthy_dict_decide.
      by case_bool_decide.
    + assert (cm = ∅) as -> by congruence. reflexivity.
Qed.

Lemma missing_default_unless_custom_answers_witness :
  (get_value Example.posix "nowhere" "server" "port" Example.loader).1 =
    Raise (default_not_found "nowhere")
  /\ (get_section_values Example.posix "solo" "server" Example.loader).1 =
       Ok {[ "port" := "9090" ]}.
Proof.
  split.
  - apply (proj1 (missing_default_unless_custom_answers
                    Example.posix Example.loader "nowhere" "server" "port"
                    example_loader_coherent
                    ltac:(by vm_compute)) None).
    by vm_compute.
  - rewrite (proj2 (missing_default_unless_custom_answers
                      Example.posix Example.loader "solo" "server" "port"
                      example_loader_coherent
                      ltac:(by vm_compute)) {[ "port" := "9090" ]}
                   ltac:(by vm_compute)).
    by vm_compute.
Defined.

(** [_get_parser] touches the cache at the path it is asked for, and
    nowhere else. *)
Lemma _get_parser_frame (os : OS) (self : INIConfigLoader) (p q : string) :
  q <> p -> parsers (_get_parser os p self).2 !! q = parsers self !! q.
Proof.
  intros Hne. unfold _get_parser, bind, attr. cbn.
  destruct (parsers self !! p) as [parser|].
  - by rewrite truth_value_true.
  - destruct (read os p); cbn; [|done]. by rewrite lookup_insert_ne.
Qed.

Lemma _find_ini_value_frame (os : OS) (self : INIConfigLoader) (p q s k : string) :
  q <> p -> parsers (_find_ini_value os p s k self).2 !! q = parsers self !! q.
Proof.
  intros Hne. rewrite <- (_get_parser_frame os self p q Hne).
  unfold _find_ini_value, bind.
  destruct (_get_parser os p self) as [[parser|e] self']; [|done]. cbn.
  by destruct (get parser s k) as [v|[]].
Qed.

(** When the custom layer answers with a non-empty value, [get_value] is
    over after that one lookup. *)
Lemma get_value_custom_hit
    (os : OS) (self : INIConfigLoader) (n s k pc vc : string) :
  locate os (custom_path os self n) = Some pc ->
  layer_value (seen os self) pc s k = Ok (Some vc) ->
  vc <> EmptyString ->
  get_value os n s k self = (Ok vc, (_find_ini_value os pc s k self).2).
Proof.
  intros Hpc Hvc Hne. unfold get_value, bind.
  rewrite _find_ini_default_run, _find_ini_custom_run, Hpc.
  rewrite (truthy_custom _ _ _ _ Hpc). cbn.
  destruct (_find_ini_value_run os self pc s k) as (s1 & -> & _).
  rewrite Hvc. by destruct vc.
Qed.

(** C4.  When both resources of a name exist and both hold a non-empty value
    for [(section, key)], [get_value] returns the custom value.  The default
    value is not the result (where the two values differ), and the default
    resource is not even looked at: its entry in the parser cache is left as
    it was. *)
Theorem get_value_override_wins
    (os : OS) (self : INIConfigLoader) (n s k pc pd vc vd : string) :
  coherent os self ->
  locate os (custom_path os self n) = Some pc ->
  locate os (default_path os self n) = Some pd ->
  resource_value os pc s k = Ok (Some vc) ->
  resource_value os pd s k = Ok (Some vd) ->
  vc <> EmptyString ->
  vd <> EmptyString ->
  (get_value os n s k self).1 = Ok vc
  /\ (vd <> vc -> (get_value os n s k self).1 <> Ok vd)
  /\ (pd <> pc ->
      parsers (get_value os n s k self).2 !! pd = parsers self !! pd).
Proof.
  intros Hc Hpc Hpd Hvc Hvd Hnc Hnd.
  assert (layer_value (seen os self) pc s k = Ok (Some vc)) as Hseen.
  { rewrite <- Hvc. apply layer_value_ext. by apply coherent_seen. }
  rewrite (get_value_custom_hit os self n s k pc vc Hpc Hseen Hnc). cbn.
  split; [done|]. split.
  - intros Hne [= ->]. done.
  - intros Hne. by apply _find_ini_value_frame.
Qed.

Lemma get_value_override_wins_witness :
  (get_value Example.posix "web" "server" "port" Example.loader).1 = Ok "9090"
  /\ parsers (get_value Example.posix "web" "server" "port" Example.loader).2
       !! "conf/web.default.ini" = None.
Proof.
  destruct (get_value_override_wins
              Example.posix Example.loader "web" "server" "port"
              "conf/web.ini" "conf/web.default.ini" "9090" "8080")
    as (Hv & _ & Hd).
  - exact example_loader_coherent.
  - by vm_compute.
  - by vm_compute.
  - by vm_compute.
  - by vm_compute.
  - discriminate.
  - discriminate.
  - split; [exact Hv|]. rewrite Hd; [by vm_compute | discriminate].
Defined.

(** C5, as stated, fails: with only a default resource, a value the resource
    stores is not returned when it is the empty string, and a section it
    holds is not returned when it has no entries.  [conf/base.default.ini]
    stores the empty string for [port] under [server] and holds an empty
    section [empty]; there is no [conf/base.ini]. *)
Lemma default_only_empty_not_returned :
  locate Example.posix (custom_path Example.posix Example.loader "base") = None
  /\ resource_value Example.posix "conf/base.default.ini" "server" "port" =
       Ok (Some EmptyString)
  /\ (get_value Example.posix "base" "server" "port" Example.loader).1 =
       Raise (value_not_found "base" "server" "port")
  /\ resource_section Example.posix "conf/base.default.ini" "empty" = Ok ∅
  /\ (get_section_values Example.posix "base" "empty" Example.loader).1 =
       Raise (section_not_found "base" "empty")
  /\ ~ (forall os self n s k pd v,
          coherent os self ->
          locate os (custom_path os self n) = None ->
          locate os (default_path os self n) = Some pd ->
          resource_value os pd s k = Ok (Some v) ->
          (get_value os n s k self).1 = Ok v).
Proof.
  pose proof example_loader_coherent as Hc.
  repeat (split; [by vm_compute|]).
  intros H.
  specialize (H Example.posix Example.loader "base" "server" "port"
                "conf/base.default.ini" EmptyString Hc).
  vm_compute in H. specialize (H eq_refl eq_refl eq_refl). discriminate H.
Qed.

(** C5, amended.  With only a default resource present, [get_value] returns
    exactly the value the default resource stores for [(section, key)] when
    that value is not empty, and [get_section_values] returns exactly the
    default resource's section when it has an entry; an empty or absent
    value raises the missing-key error and an empty or absent section the
    missing-section error. *)
Theorem default_only_answers
    (os : OS) (self : INIConfigLoader) (n s k pd : string) :
  coherent os self ->
  locate os (custom_path os self n) = None ->
  locate os (default_path os self n) = Some pd ->
  (forall dv,
     resource_value os pd s k = Ok dv ->
     (get_value os n s k self).1 =
       (if truthy dv then Ok (str_of dv) else Raise (value_not_found n s k)))
  /\ (forall v,
        resource_value os pd s k = Ok (Some v) -> v <> EmptyString ->
        (get_value os n s k self).1 = Ok v)
  /\ (forall dm,
        resource_section os pd s = Ok dm ->
        (get_section_values os n s self).1 =
          (if bool_decide (dm = ∅) then Raise (section_not_found n s) else Ok dm)).
Proof.
  intros Hc Hpc Hpd.
  assert (forall dv,
            resource_value os pd s k = Ok dv ->
            (get_value os n s k self).1 =
              (if truthy dv then Ok (str_of dv)
               else Raise (value_not_found n s k))) as Hval.
  { intros dv Hdv. rewrite get_value_coherent by done. unfold lookup_value.
    rewrite Hpc, Hpd, (truthy_default _ _ _ _ Hpd). cbn.
    unfold resource_value in Hdv. rewrite Hdv.
    by destruct dv as [[|c v]|]. }
  split; [done|]. split.
  - intros v Hv Hne. rewrite (Hval _ Hv). by destruct v.
  - intros dm Hdm. rewrite get_section_values_coherent by done.
    unfold lookup_section.
    rewrite Hpc, Hpd, (truthy_default _ _ _ _ Hpd). cbn.
    unfold resource_section in Hdm. rewrite Hdm. cbn.
    rewrite (right_id_L ∅ (∪) dm), truthy_dict_decide.
    by case_bool_decide.
Qed.

Lemma default_only_answers_witness :
  (get_value Example.posix "base" "server" "host" Example.loader).1 = Ok "localhost"
  /\ (get_value Example.posix "base" "server" "port" Example.loader).1 =
       Raise (value_not_found "base" "server" "port")
  /\ (get_section_values Example.posix "base" "server" Example.loader).1 =
       Ok {[ "host" := "localhost"; "port" := EmptyString ]}.
Proof.
  destruct (default_only_answers
              Example.posix Example.loader "base" "server" "port"
              "conf/base.default.ini") as (Hport & _ & Hsection).
  { exact example_loader_coherent. }
  { by vm_compute. }
  { by vm_compute. }
  split; [|split].
  - apply (proj1 (proj2 (default_only_answers
                           Example.posix Example.loader "base" "server" "host"
                           "conf/base.default.ini"
                           example_loader_coherent
                           ltac:(by vm_compute) ltac:(by vm_compute)))).
    + by vm_compute.
    + discriminate.
  - rewrite (Hport (Some EmptyString)); by vm_compute.
  - rewrite (Hsection {[ "host" := "localhost"; "port" := EmptyString ]});
      by vm_compute.
Defined.

(** *** The library model on small inputs *)

Example before_get_references :
  before_get "s" "o" "a%%b%(X)s!" {[ "x" := "1%(y)s"; "y" := "Q" ]} = Ok "a%b1Q!".
Proof. by vm_compute. Qed.

Example before_get_cycle :
  before_get "s" "o" "%(x)s" {[ "x" := "%(x)s" ]} =
    Raise (InterpolationDepthError "o" "s").
Proof. by vm_compute. Qed.

Example before_get_lone_percent :
  before_get "s" "o" "50%" ∅ = Raise (InterpolationSyntaxError "o" "s").
Proof. by vm_compute. Qed.

Example get_falls_back_on_DEFAULT :
  get {| _sections := {[ "server" := ∅ ]}; _defaults := {[ "port" := "80" ]} |}
      "server" "PORT" = Ok "80".
Proof. by vm_compute. Qed.

Example get_no_section :
  get Example.app_default "client" "port" = Raise (NoSectionError "client").
Proof. by vm_compute. Qed.

(** *** Which exceptions the library calls raise *)

Section Library.

Lemma fmap_Raise {A B} (f : A -> B) (m : res A) (e : exn) :
  f <$> m = Raise e -> m = Raise e.
Proof. destruct m; [discriminate | by intros [= ->]]. Qed.

Lemma bind_Raise {A B} (f : A -> res B) (m : res A) (e : exn) :
  m ≫= f = Raise e -> m = Raise e \/ exists a, m = Ok a /\ f a = Raise e.
Proof. destruct m as [a|e']; cbn; [eauto | intros [= ->]; eauto]. Qed.

Lemma interpolate_loop_from_library
    (o s : string) (map : gmap string string) (deeper : string -> res string) :
  (forall v e, deeper v = Raise e -> from_library e) ->
  forall rest st e,
    interpolate_loop o s map deeper st rest = Raise e -> from_library e.
Proof.
  intros Hdeeper. induction rest as [|c r IH]; intros st e; cbn.
  - destruct st; intros [= <-]; done.
  - destruct st as [| |acc|name].
    + destruct (Ascii.eqb c "%"); [apply IH|].
      intros H%fmap_Raise. eauto.
    + destruct (Ascii.eqb c "%"); [intros H%fmap_Raise; eauto|].
      destruct (Ascii.eqb c "("); [apply IH | by intros [= <-]].
    + destruct (Ascii.eqb c ")"); [|apply IH].
      destruct acc; [by intros [= <-] | apply IH].
    + destruct (Ascii.eqb c "s"); [|by intros [= <-]].
      destruct (map !! optionxform name) as [v|]; [|by intros [= <-]].
      destruct (has_percent v).
      * destruct (deeper v) as [v'|e'] eqn:Hv; cbn.
        -- intros H%fmap_Raise. eauto.
        -- intros [= <-]. eauto.
      * cbn. intros H%fmap_Raise. eauto.
Qed.

Lemma _interpolate_some_from_library
    (fuel : nat) (o s : string) (map : gmap string string) (rest : string) (e : exn) :
  _interpolate_some fuel o s map rest = Raise e -> from_library e.
Proof.
  revert rest e. induction fuel as [|fuel IH]; intros rest e; cbn.
  - by intros [= <-].
  - apply interpolate_loop_from_library. exact IH.
Qed.

Lemma get_from_library (parser : ConfigParser) (s k : string) (e : exn) :
  get parser s k = Raise e -> from_library e.
Proof.
  unfold get. intros [H|(d & _ & H)]%bind_Raise.
  - unfold _unify_values in H.
    destruct (_sections parser !! s); [done|].
    case_bool_decide; [done|]. by injection H as <-.
  - destruct (d !! optionxform k) as [value|]; [|by injection H as <-].
    unfold before_get in H. by apply _interpolate_some_from_library in H.
Qed.

Lemma proxy_items_from_library (parser : ConfigParser) (s : string) (e : exn) :
  proxy_items parser s = Raise e -> from_library e.
Proof.
  unfold proxy_items.
  destruct (proxy_options parser s) as [opts|e'] eqn:Hopts; cbn.
  - revert e. apply (map_fold_weak_ind
      (fun (r : res (gmap string string)) (_ : gmap string string) =>
         forall e, r = Raise e -> from_library e)).
    + done.
    + intros key v m r _ IH e.
      destruct r as [d|e']; cbn; [|by intros [= <-]; eauto].
      unfold proxy_getitem. destruct (has_option parser s key); cbn.
      * destruct (get parser s key) eqn:Hget; cbn; [done|].
        intros [= <-]. eauto using get_from_library.
      * by intros [= <-].
  - intros [= <-]. unfold proxy_options, options in Hopts.
    case_bool_decide; [done|].
    destruct (_sections parser !! s); [done|]. by injection Hopts as <-.
Qed.

Lemma parser_value_from_library (parser : ConfigParser) (s k : string) (e : exn) :
  parser_value parser s k = Raise e -> from_library e.
Proof.
  unfold parser_value. destruct (get parser s k) as [v|e'] eqn:Hget; [done|].
  apply get_from_library in Hget.
  destruct e'; try done; by intros [= <-].
Qed.

Lemma parser_section_from_library (parser : ConfigParser) (s : string) (e : exn) :
  parser_section parser s = Raise e -> from_library e.
Proof.
  unfold parser_section. destruct (has_section parser s); [|done].
  apply proxy_items_from_library.
Qed.

Variable os : OS.

Lemma seen_from_library (self : INIConfigLoader) (p : string) (e : exn) :
  seen os self p = Raise e -> from_library e.
Proof.
  rewrite seen_lookup. destruct (parsers self !! p); [done|].
  unfold read. destruct (files os !! p) as [[parser|what]|]; try done.
  by intros [= <-].
Qed.

Lemma layer_value_from_library (self : INIConfigLoader) (p s k : string) (e : exn) :
  layer_value (seen os self) p s k = Raise e -> from_library e.
Proof.
  unfold layer_value. destruct (seen os self p) as [parser|e'] eqn:Hseen; cbn.
  - apply parser_value_from_library.
  - intros [= <-]. eauto using seen_from_library.
Qed.

Lemma layer_section_from_library (self : INIConfigLoader) (p s : string) (e : exn) :
  layer_section (seen os self) p s = Raise e -> from_library e.
Proof.
  unfold layer_section. destruct (seen os self p) as [parser|e'] eqn:Hseen; cbn.
  - apply parser_section_from_library.
  - intros [= <-]. eauto using seen_from_library.
Qed.

End Library.

(** *** The missing-default error needs a missing default *)

Section NotDefaultError.
Variable os : OS.

Lemma default_not_found_not_from_library (n : string) :
  ~ from_library (default_not_found n).
Proof. exact id. Qed.

Lemma value_not_found_neq (n s k : string) :
  value_not_found n s k <> default_not_found n.
Proof. discriminate. Qed.

Lemma section_not_found_neq (n s : string) :
  section_not_found n s <> default_not_found n.
Proof. discriminate. Qed.

Lemma lookup_value_default_present
    (self : INIConfigLoader) (d c : option string) (n s k : string) :
  truthy d = true ->
  lookup_value (seen os self) d c n s k <> Raise (default_not_found n).
Proof.
  intros Hd. unfold lookup_value. rewrite Hd.
  intros [H|(value & _ & H)]%bind_Raise.
  - apply (default_not_found_not_from_library n).
    destruct (truthy c).
    + apply bind_Raise in H as [H|(value & _ & H)];
        [by apply layer_value_from_library in H|].
      destruct (negb (truthy value) && true); [|done].
      by apply layer_value_from_library in H.
    + by apply layer_value_from_library in H.
  - destruct (negb (truthy value)); [|done]. discriminate H.
Qed.

Lemma lookup_section_default_present
    (self : INIConfigLoader) (d c : option string) (n s : string) :
  truthy d = true ->
  lookup_section (seen os self) d c n s <> Raise (default_not_found n).
Proof.
  intros Hd. unfold lookup_section. rewrite Hd.
  intros [H|(r1 & _ & [H|(r2 & _ & H)]%bind_Raise)]%bind_Raise.
  - apply (default_not_found_not_from_library n).
    apply bind_Raise in H as [H|(? & _ & H)]; [|done].
    by apply layer_section_from_library in H.
  - apply (default_not_found_not_from_library n).
    destruct (truthy c); [|done].
    apply bind_Raise in H as [H|(? & _ & H)]; [|done].
    by apply layer_section_from_library in H.
  - destruct (negb (truthy_dict r2)); [|done]. discriminate H.
Qed.

End NotDefaultError.

(** C6.  When the default resource of a name exists: [get_value] raises the
    missing-key error exactly when neither layer gives a non-empty value
    for [(section, key)]; [get_section_values] raises the missing-section
    error exactly when the merged section is empty, that is when the section
    is absent or empty in both layers; and neither operation raises the
    missing-default error, whatever else happens. *)
Theorem missing_key_and_missing_section
    (os : OS) (self : INIConfigLoader) (n s k pd : string) :
  coherent os self ->
  locate os (default_path os self n) = Some pd ->
  (forall cv dv,
     custom_value os self n s k = Ok cv ->
     resource_value os pd s k = Ok dv ->
     ((get_value os n s k self).1 = Raise (value_not_found n s k)
      <-> truthy cv = false /\ truthy dv = false))
  /\ (forall cm dm,
        custom_section os self n s = Ok cm ->
        resource_section os pd s = Ok dm ->
        ((get_section_values os n s self).1 = Raise (section_not_found n s)
         <-> cm ∪ dm = ∅)
        /\ (cm ∪ dm = ∅ <-> cm = ∅ /\ dm = ∅))
  /\ (get_value os n s k self).1 <> Raise (default_not_found n)
  /\ (get_section_values os n s self).1 <> Raise (default_not_found n).
Proof.
  intros Hc Hpd.
  pose proof (truthy_default _ _ _ _ Hpd) as Htd.
  split; [|split; [|split]].
  - intros cv dv Hcv Hdv. rewrite get_value_coherent by done.
    unfold lookup_value. rewrite Hpd, Htd. unfold custom_value in Hcv.
    unfold resource_value in Hdv.
    destruct (locate os (custom_path os self n)) as [pc|] eqn:Hpc.
    + rewrite (truthy_custom _ _ _ _ Hpc). cbn.
      unfold resource_value in Hcv. rewrite Hcv. cbn.
      destruct (truthy cv) eqn:Ecv; cbn.
      * rewrite Ecv. cbn. split; [discriminate | intros [? _]; discriminate].
      * rewrite Hdv. cbn.
        destruct (truthy dv); cbn; split; try done; intros [_ ?]; discriminate.
    + assert (cv = None) as -> by congruence. cbn.
      rewrite Hdv. cbn.
      destruct (truthy dv); cbn; split; try done; intros [_ ?]; discriminate.
  - intros cm dm Hcm Hdm. split; [|apply union_empty_iff].
    rewrite get_section_values_coherent by done.
    unfold lookup_section. rewrite Hpd, Htd. unfold custom_section in Hcm.
    change (str_of (Some pd)) with pd.
    unfold resource_section in Hdm. rewrite Hdm. cbn.
    rewrite (right_id_L ∅ (∪) dm).
    destruct (locate os (custom_path os self n)) as [pc|] eqn:Hpc.
    + rewrite (truthy_custom _ _ _ _ Hpc).
      change (str_of (Some pc)) with pc.
      unfold resource_section in Hcm. rewrite Hcm. cbn.
      rewrite truthy_dict_decide. case_bool_decide; cbn; split; done.
    + assert (cm = ∅) as -> by congruence. cbn.
      rewrite (left_id_L ∅ (∪) dm), truthy_dict_decide.
      case_bool_decide; cbn; split; done.
  - destruct (get_value_run os self n s k) as (self' & -> & _). cbn.
    apply lookup_value_default_present. by rewrite Hpd.
  - destruct (get_section_values_run os self n s) as (self' & -> & _). cbn.
    apply lookup_section_default_present. by rewrite Hpd.
Qed.

Lemma missing_key_and_missing_section_witness :
  (get_value Example.posix "app" "server" "user" Example.loader).1 =
    Raise (value_not_found "app" "server" "user")
  /\ (get_section_values Example.posix "app" "client" Example.loader).1 =
       Raise (section_not_found "app" "client")
  /\ (get_value Example.posix "app" "server" "user" Example.loader).1 <>
       Raise (default_not_found "app").
Proof.
  destruct (missing_key_and_missing_section
              Example.posix Example.loader "app" "server" "user"
              "conf/app.default.ini") as (Hkey & _ & Hnot & _).
  { exact example_loader_coherent. }
  { by vm_compute. }
  destruct (missing_key_and_missing_section
              Example.posix Example.loader "app" "client" "user"
              "conf/app.default.ini") as (_ & Hsection & _).
  { exact example_loader_coherent. }
  { by vm_compute. }
  split; [|split].
  - apply (Hkey None None); by vm_compute.
  - apply (proj1 (Hsection ∅ ∅ ltac:(by vm_compute) ltac:(by vm_compute))).
    by apply union_empty_iff.
  - exact Hnot.
Defined.

(** *** The cache across calls *)

Section Cache.
Variable os : OS.

Lemma perform_run (self : INIConfigLoader) (r : request) :
  exists self',
    perform os r self = (answer_for os (seen os self) self r, self')
    /\ same_view os self self'.
Proof.
  destruct r as [n s k|n s]; unfold perform, bind, answer_for.
  - destruct (get_value_run os self n s k) as (self' & -> & Hv).
    exists self'. split; [|done]. by destruct (lookup_value _ _ _ _ _ _).
  - destruct (get_section_values_run os self n s) as (self' & -> & Hv).
    exists self'. split; [|done]. by destruct (lookup_section _ _ _ _ _).
Qed.

Lemma answer_for_same_view (self self' : INIConfigLoader) (r : request) :
  same_view os self self' ->
  answer_for os (seen os self) self r = answer_for os (seen os self') self' r.
Proof.
  intros Hv. pose proof Hv as (_ & _ & _ & Hseen).
  destruct r as [n s k|n s]; unfold answer_for;
    rewrite (custom_path_same_view os self self' n Hv),
            (default_path_same_view os self self' n Hv).
  - by rewrite (lookup_value_ext _ _ _ _ _ _ _ Hseen).
  - by rewrite (lookup_section_ext _ _ _ _ _ _ Hseen).
Qed.

Lemma perform_same_view (self self' : INIConfigLoader) (r : request) :
  same_view os self self' -> (perform os r self).1 = (perform os r self').1.
Proof.
  intros Hv.
  destruct (perform_run self r) as (s1 & -> & _).
  destruct (perform_run self' r) as (s2 & -> & _).
  by apply answer_for_same_view.
Qed.

Lemma after_same_view (rs : list request) (self : INIConfigLoader) :
  same_view os self (after os rs self).
Proof.
  revert self. induction rs as [|r rs IH]; intros self; cbn.
  - apply same_view_refl.
  - destruct (perform_run self r) as (s1 & E & Hv). rewrite E. cbn.
    eauto using same_view_trans.
Qed.

Lemma after_coherent (rs : list request) (self : INIConfigLoader) :
  coherent os self -> coherent os (after os rs self).
Proof. apply coherent_same_view, after_same_view. Qed.

Lemma perform_coherent (self : INIConfigLoader) (r : request) :
  coherent os self -> (perform os r self).1 = perform_uncached os self r.
Proof.
  intros Hc. destruct (perform_run self r) as (s1 & -> & _). cbn.
  unfold perform_uncached. pose proof (proj1 (coherent_seen os self) Hc) as Hs.
  destruct r as [n s k|n s]; unfold answer_for.
  - by rewrite (lookup_value_ext _ _ _ _ _ _ _ Hs).
  - by rewrite (lookup_section_ext _ _ _ _ _ _ Hs).
Qed.

(** Nothing ever leaves the cache. *)
Lemma keeps_cache_ret {A} (a : A) : keeps_cache (ret a).
Proof. by intros self. Qed.

Lemma keeps_cache_raise {A} (e : exn) : keeps_cache (@raise A e).
Proof. by intros self. Qed.

Lemma keeps_cache_attr {A} (f : INIConfigLoader -> A) : keeps_cache (attr f).
Proof. by intros self. Qed.

Lemma keeps_cache_bind {A B} (m : M A) (k : A -> M B) :
  keeps_cache m -> (forall a, keeps_cache (k a)) -> keeps_cache (bind m k).
Proof.
  intros Hm Hk self. unfold bind. specialize (Hm self).
  destruct (m self) as [[a|e] s1]; cbn in *; [|done].
  by etrans; [apply Hm | apply Hk].
Qed.

Lemma keeps_cache__get_parser (p : string) : keeps_cache (_get_parser os p).
Proof.
  intros self. unfold _get_parser, bind, attr. cbn.
  destruct (parsers self !! p) as [parser|] eqn:E.
  - by rewrite truth_value_true.
  - destruct (read os p); cbn; [|done]. by apply insert_subseteq.
Qed.

Local Ltac keeps :=
  repeat first
    [ apply keeps_cache_ret | apply keeps_cache_raise | apply keeps_cache_attr
    | apply keeps_cache__get_parser
    | apply keeps_cache_bind; [|intros ?]
    | match goal with
      | |- keeps_cache (if ?b then _ else _) => destruct b
      | |- keeps_cache (match ?x with _ => _ end) => destruct x
      end ].

Lemma keeps_cache_get_value (n s k : string) : keeps_cache (get_value os n s k).
Proof. unfold get_value, _find_ini_default, _find_ini_custom, _find_ini_value. keeps. Qed.

Lemma keeps_cache_get_section_values (n s : string) :
  keeps_cache (get_section_values os n s).
Proof.
  unfold get_section_values, _find_ini_default, _find_ini_custom, _get_ini_section.
  keeps.
Qed.

Lemma keeps_cache_after (rs : list request) (self : INIConfigLoader) :
  parsers self ⊆ parsers (after os rs self).
Proof.
  revert self. induction rs as [|r rs IH]; intros self; cbn; [done|].
  etrans; [|apply IH].
  destruct r as [n s k|n s]; unfold perform.
  - apply (keeps_cache_bind _ _ (keeps_cache_get_value n s k)).
    intros v. apply keeps_cache_ret.
  - apply (keeps_cache_bind _ _ (keeps_cache_get_section_values n s)).
    intros v. apply keeps_cache_ret.
Qed.

Lemma _get_parser_cached (p : string) (parser : ConfigParser)
    (self self' : INIConfigLoader) :
  _get_parser os p self = (Ok parser, self') -> parsers self' !! p = Some parser.
Proof.
  unfold _get_parser, bind, attr. cbn.
  destruct (parsers self !! p) as [cached|] eqn:E.
  - rewrite truth_value_true. unfold ret. by intros [= <- <-].
  - destruct (read os p); cbn; [|done]. unfold ret. intros [= <- <-]. cbn.
    apply lookup_insert_eq.
Qed.

End Cache.

(** A cached parser is handed out as it is, whatever the files hold now. *)
Lemma _get_parser_reuse (os : OS) (p : string) (parser : ConfigParser)
    (self : INIConfigLoader) :
  parsers self !! p = Some parser -> _get_parser os p self = (Ok parser, self).
Proof.
  intros E. unfold _get_parser, bind, attr. cbn. rewrite E.
  by rewrite truth_value_true.
Qed.

(** C7.  Repeating a call of [get_value] or of [get_section_values] with the
    same arguments, the files unchanged, gives the same result; more
    generally the result of a call does not depend on the calls made before
    it.  The parser cache is invisible: with a cache that reflects the files
    every call answers as the cache-free lookup does.  And a path parsed once
    is not read again: its parser is handed out from the cache from then on,
    whatever the files hold. *)
Theorem repeated_calls_identical (os : OS) :
  (forall self n s k,
     (get_value os n s k (get_value os n s k self).2).1 =
     (get_value os n s k self).1)
  /\ (forall self n s,
        (get_section_values os n s (get_section_values os n s self).2).1 =
        (get_section_values os n s self).1)
  /\ (forall self r rs,
        (perform os r (after os rs self)).1 = (perform os r self).1)
  /\ (forall self r rs,
        coherent os self ->
        (perform os r (after os rs self)).1 = perform_uncached os self r)
  /\ (forall self p parser self',
        _get_parser os p self = (Ok parser, self') ->
        forall rs os',
          _get_parser os' p (after os rs self') = (Ok parser, after os rs self')).
Proof.
  split; [|split; [|split; [|split]]].
  - intros self n s k.
    destruct (get_value_run os self n s k) as (s1 & E1 & Hv). rewrite E1. cbn.
    destruct (get_value_run os s1 n s k) as (s2 & -> & _). cbn.
    pose proof Hv as (_ & _ & _ & Hseen).
    rewrite <- (custom_path_same_view os self s1 n Hv),
            <- (default_path_same_view os self s1 n Hv).
    symmetry. by apply lookup_value_ext.
  - intros self n s.
    destruct (get_section_values_run os self n s) as (s1 & E1 & Hv).
    rewrite E1. cbn.
    destruct (get_section_values_run os s1 n s) as (s2 & -> & _). cbn.
    pose proof Hv as (_ & _ & _ & Hseen).
    rewrite <- (custom_path_same_view os self s1 n Hv),
            <- (default_path_same_view os self s1 n Hv).
    symmetry. by apply lookup_section_ext.
  - intros self r rs. symmetry. apply perform_same_view, after_same_view.
  - intros self r rs Hc.
    rewrite <- (perform_coherent os self r Hc).
    symmetry. apply perform_same_view, after_same_view.
  - intros self p parser self' Hrun rs os'.
    apply _get_parser_reuse.
    apply (lookup_weaken (parsers self')); [|apply keeps_cache_after].
    by eapply _get_parser_cached.
Qed.

Lemma repeated_calls_identical_witness :
  (perform Example.posix (GetValue "app" "server" "port")
     (after Example.posix
        [GetSectionValues "app" "server"; GetValue "web" "server" "port"]
        Example.loader)).1 = Ok (Value "8080")
  /\ _get_parser Example.posix "conf/app.ini"
       (after Example.posix [GetValue "app" "server" "host"]
          (_get_parser Example.posix "conf/app.ini" Example.loader).2) =
     (Ok Example.app_custom,
      after Example.posix [GetValue "app" "server" "host"]
        (_get_parser Example.posix "conf/app.ini" Example.loader).2).
Proof.
  destruct (repeated_calls_identical Example.posix) as (_ & _ & _ & Hun & Hre).
  split.
  - rewrite (Hun Example.loader (GetValue "app" "server" "port")
               [GetSectionValues "app" "server"; GetValue "web" "server" "port"]).
    + by vm_compute.
    + exact example_loader_coherent.
  - apply (Hre Example.loader). by vm_compute.
Defined.

(** *** The locator and the constructor *)

Lemma append_assoc' (a b c : string) : (a +:+ b) +:+ c = a +:+ b +:+ c.
Proof.
  induction a as [|x a IH]; [done|].
  change (String x ((a +:+ b) +:+ c) = String x (a +:+ b +:+ c)).
  by rewrite IH.
Qed.

(** C8.  For a name [n] the locator builds the custom path as base directory,
    separator, [n], [config_ext], and the default path as base directory,
    separator, [n], [default_ext], [config_ext]; each of the two methods
    returns its path when a file is there and returns [None], without
    raising, when there is none.  With the extensions the constructor takes
    by default the two file names are [n.ini] and [n.default.ini]. *)
Theorem locator_paths (os : OS) (self : INIConfigLoader) (n : string) :
  let custom :=
    configs_path self +:+ String (sep os) EmptyString +:+ n +:+ config_ext self in
  let default :=
    configs_path self +:+ String (sep os) EmptyString +:+ n
    +:+ default_ext self +:+ config_ext self in
  _find_ini_custom os n self =
    (Ok (if isfile os custom then Some custom else None), self)
  /\ _find_ini_default os n self =
       (Ok (if isfile os default then Some default else None), self)
  /\ (forall base,
        __init__ os base config_ext_default default_ext_default = Ok self ->
        custom = base +:+ String (sep os) EmptyString +:+ n +:+ ".ini"
        /\ default = base +:+ String (sep os) EmptyString +:+ n +:+ ".default.ini").
Proof.
  cbn zeta. split; [|split].
  - rewrite _find_ini_custom_run. unfold locate, custom_path.
    by rewrite !append_assoc'.
  - rewrite _find_ini_default_run. unfold locate, default_path.
    by rewrite !append_assoc'.
  - intros base. unfold __init__.
    destruct (last_char base) as [c|]; cbn; [|done].
    destruct (Ascii.eqb c (sep os)); [done|]. by intros [= <-].
Qed.

Lemma locator_paths_witness :
  _find_ini_custom Example.posix "app" Example.loader =
    (Ok (Some "conf/app.ini"), Example.loader)
  /\ _find_ini_default Example.posix "app" Example.loader =
       (Ok (Some "conf/app.default.ini"), Example.loader)
  /\ _find_ini_default Example.posix "solo" Example.loader =
       (Ok None, Example.loader).
Proof.
  destruct (locator_paths Example.posix Example.loader "app") as (Hc & Hd & Hi).
  destruct (Hi "conf" ltac:(by vm_compute)) as [_ _].
  destruct (locator_paths Example.posix Example.loader "solo") as (_ & Hs & _).
  split; [|split].
  - rewrite Hc. by vm_compute.
  - rewrite Hd. by vm_compute.
  - rewrite Hs. by vm_compute.
Defined.

(** The constructor on a path that is not empty: the assertion fails exactly
    when the path ends with the separator. *)
Lemma last_char_snoc (prefix : string) (c : ascii) :
  last_char (prefix +:+ String c EmptyString) = Ok c.
Proof.
  induction prefix as [|x prefix IH]; [done|].
  destruct prefix as [|y prefix]; [done | exact IH].
Qed.

Lemma last_char_Ok (path : string) (c : ascii) :
  last_char path = Ok c -> exists prefix, path = prefix +:+ String c EmptyString.
Proof.
  induction path as [|x path IH]; [done|]. cbn.
  destruct path as [|y path].
  - intros [= <-]. by exists EmptyString.
  - intros [prefix ->]%IH. by exists (String x prefix).
Qed.

Lemma last_char_Raise (path : string) (e : exn) :
  last_char path = Raise e -> path = EmptyString.
Proof.
  induction path as [|x path IH]; [done|]. cbn.
  destruct path as [|y path]; [done|]. by intros H%IH.
Qed.

Lemma init_trailing_separator (os : OS) (prefix config_ext default_ext : string) :
  __init__ os (prefix +:+ String (sep os) EmptyString) config_ext default_ext =
    Raise AssertionError.
Proof.
  unfold __init__. rewrite last_char_snoc. cbn. by rewrite Ascii.eqb_refl.
Qed.

Lemma init_no_trailing_separator
    (os : OS) (prefix config_ext default_ext : string) (c : ascii) :
  c <> sep os ->
  __init__ os (prefix +:+ String c EmptyString) config_ext default_ext =
    Ok {| configs_path := prefix +:+ String c EmptyString;
          parsers := ∅;
          config_ext := config_ext;
          default_ext := default_ext |}.
Proof.
  intros Hne. unfold __init__. rewrite last_char_snoc. cbn.
  by apply Ascii.eqb_neq in Hne as ->.
Qed.

(** Construction succeeds exactly on the paths that are not empty and do
    not end with the separator. *)
Lemma init_succeeds_iff (os : OS) (path config_ext default_ext : string) :
  (exists self, __init__ os path config_ext default_ext = Ok self)
  <-> path <> EmptyString
      /\ ~ (exists prefix, path = prefix +:+ String (sep os) EmptyString).
Proof.
  split.
  - intros [self Hinit]. split.
    + by intros ->.
    + intros [prefix ->]. by rewrite init_trailing_separator in Hinit.
  - intros [Hne Hsep]. destruct (last_char path) as [c|e] eqn:Hlast.
    + apply last_char_Ok in Hlast as [prefix ->].
      eexists. apply init_no_trailing_separator.
      intros ->. apply Hsep. by exists prefix.
    + by apply last_char_Raise in Hlast.
Qed.

(** C9.  The constructor on the empty path: [configs_path[-1]] raises
    [IndexError] before the assertion is evaluated, although the empty path
    does not end with the separator. *)
Theorem init_empty_path (os : OS) (config_ext default_ext : string) :
  __init__ os EmptyString config_ext default_ext = Raise IndexError
  /\ ~ (exists prefix, EmptyString = prefix +:+ String (sep os) EmptyString).
Proof.
  split; [done|]. intros [[|x prefix] H]; discriminate H.
Qed.

(** C10.  A call of [get_value] that returns, returns a string that is not
    empty: a value that Python takes for false makes the call raise. *)
Theorem get_value_returns_nonempty
    (os : OS) (self self' : INIConfigLoader) (n s k v : string) :
  get_value os n s k self = (Ok v, self') -> v <> EmptyString.
Proof.
  intros Hrun. destruct (get_value_run os self n s k) as (s1 & E & _).
  rewrite E in Hrun. injection Hrun as Hrun _.
  unfold lookup_value in Hrun.
  destruct (if truthy (locate os (custom_path os self n)) then _ else _)
    as [value|e]; cbn in Hrun; [|done].
  destruct (truthy value) eqn:Ev; cbn in Hrun.
  - injection Hrun as <-. by apply truthy_str_of.
  - by destruct (negb _).
Qed.

Lemma get_value_returns_nonempty_witness :
  (get_value Example.posix "app" "server" "port" Example.loader).1 = Ok "8080"
  /\ "8080" <> EmptyString.
Proof.
  split; [by vm_compute|].
  apply (get_value_returns_nonempty
           Example.posix Example.loader
           (get_value Example.posix "app" "server" "port" Example.loader).2
           "app" "server" "port" "8080").
  by vm_compute.
Defined.

(** * Further properties of the loader *)

(** ** The constructor *)

(** X1.  The constructor has three outcomes and no other: [IndexError] on
    the empty path, [AssertionError] on a path that ends with the separator,
    and otherwise a loader that holds the path and the two extensions as
    given, with an empty parser cache. *)
Theorem init_outcomes (os : OS) (path config_ext default_ext : string) :
  (path = EmptyString
   /\ __init__ os path config_ext default_ext = Raise IndexError)
  \/ ((exists prefix, path = prefix +:+ String (sep os) EmptyString)
      /\ __init__ os path config_ext default_ext = Raise AssertionError)
  \/ (path <> EmptyString
      /\ ~ (exists prefix, path = prefix +:+ String (sep os) EmptyString)
      /\ __init__ os path config_ext default_ext =
           Ok {| configs_path := path;
                 parsers := ∅;
                 config_ext := config_ext;
                 default_ext := default_ext |}).
Proof.
  destruct (last_char path) as [c|e] eqn:Hlast.
  - apply last_char_Ok in Hlast as [prefix ->].
    destruct (decide (c = sep os)) as [->|Hne].
    + right; left. split; [by exists prefix | apply init_trailing_separator].
    + right; right. split; [by destruct prefix|]. split.
      * intros [prefix' H].
        apply (f_equal last_char) in H. rewrite !last_char_snoc in H.
        by injection H.
      * by apply init_no_trailing_separator.
  - left. apply last_char_Raise in Hlast as ->. by split.
Qed.

(** X2.  Over unchanged files the state of a loader built by the
    constructor keeps, through any sequence of calls of the two operations
    and whatever they return or raise, the settings it was built with and a
    cache in which every parser is what reading its path gives. *)
Theorem loader_invariant
    (os : OS) (path config_ext' default_ext' : string)
    (self : INIConfigLoader) (rs : list request) :
  __init__ os path config_ext' default_ext' = Ok self ->
  configs_path (after os rs self) = path
  /\ config_ext (after os rs self) = config_ext'
  /\ default_ext (after os rs self) = default_ext'
  /\ coherent os (after os rs self).
Proof.
  intros Hinit.
  pose proof (after_same_view os rs self) as (H1 & H2 & H3 & _).
  rewrite <- H1, <- H2, <- H3.
  pose proof (after_coherent os rs self (init_coherent os _ _ _ _ Hinit)) as Hc.
  unfold __init__ in Hinit.
  destruct (last_char path) as [c|]; cbn in Hinit; [|done].
  destruct (Ascii.eqb c (sep os)); [done|]. by injection Hinit as <-.
Qed.

Lemma loader_invariant_witness :
  configs_path
    (after Example.posix
       [GetValue "app" "server" "port"; GetSectionValues "nowhere" "server"]
       Example.loader) = "conf"
  /\ coherent Example.posix
       (after Example.posix
          [GetValue "app" "server" "port"; GetSectionValues "nowhere" "server"]
          Example.loader).
Proof.
  destruct (loader_invariant Example.posix "conf" ".ini" ".default"
              Example.loader
              [GetValue "app" "server" "port"; GetSectionValues "nowhere" "server"])
    as (H1 & _ & _ & H4).
  - by vm_compute.
  - by split.
Defined.

(** ** The two paths of a name *)







(** ** What a call does to the parser cache *)

Section Footprint.
Variable os : OS.

Lemma gains_refl (touched : string -> Prop) (self : INIConfigLoader) :
  gains os touched self self.
Proof. intros q. by left. Qed.

Lemma gains_trans (touched : string -> Prop) (s1 s2 s3 : INIConfigLoader) :
  gains os touched s1 s2 -> gains os touched s2 s3 -> gains os touched s1 s3.
Proof.
  intros G12 G23 q.
  destruct (G12 q) as [E12|(Hq & N1 & P & R & E2)],
           (G23 q) as [E23|(Hq' & N2 & P' & R' & E3)].
  - left. congruence.
  - right. split; [done|]. split; [congruence|]. by exists P'.
  - right. split; [done|]. split; [done|]. exists P. split; [done|congruence].
  - congruence.
Qed.

Lemma gains_weaken (touched touched' : string -> Prop)
    (self self' : INIConfigLoader) :
  (forall q, touched q -> touched' q) ->
  gains os touched self self' -> gains os touched' self self'.
Proof.
  intros Himp G q. destruct (G q) as [E|(Hq & N & P & R & E)]; [by left|].
  right. split; [by apply Himp|]. split; [done|]. by exists P.
Qed.

Lemma _get_parser_gains (self : INIConfigLoader) (p : string) :
  gains os (eq p) self (_get_parser os p self).2.
Proof.
  intros q. unfold _get_parser, bind, attr. cbn.
  destruct (parsers self !! p) as [cached|] eqn:E.
  - rewrite truth_value_true. by left.
  - destruct (read os p) as [parser|e] eqn:R; cbn; [|by left].
    destruct (decide (p = q)) as [<-|Hne].
    + right. split; [done|]. split; [done|]. exists parser.
      split; [done|]. apply lookup_insert_eq.
    + left. by apply lookup_insert_ne.
Qed.

Lemma _find_ini_value_state (self : INIConfigLoader) (p s k : string) :
  (_find_ini_value os p s k self).2 = (_get_parser os p self).2.
Proof.
  unfold _find_ini_value, bind.
  destruct (_get_parser os p self) as [[parser|e] self']; [|done]. cbn.
  by destruct (get parser s k) as [v|[]].
Qed.

Lemma _get_ini_section_state (self : INIConfigLoader) (p s : string) :
  (_get_ini_section os p s self).2 = (_get_parser os p self).2.
Proof.
  unfold _get_ini_section, bind.
  destruct (_get_parser os p self) as [[parser|e] self']; [|done]. cbn.
  destruct (has_section parser s); [|done].
  by destruct (proxy_items parser s).
Qed.

Lemma located_custom (self : INIConfigLoader) (n : string) :
  truthy (locate os (custom_path os self n)) = true ->
  file_of os self n (str_of (locate os (custom_path os self n))).
Proof.
  unfold locate, file_of.
  destruct (isfile os (custom_path os self n)) eqn:E; [|done]. cbn. eauto.
Qed.

Lemma located_default (self : INIConfigLoader) (n : string) :
  truthy (locate os (default_path os self n)) = true ->
  file_of os self n (str_of (locate os (default_path os self n))).
Proof.
  unfold locate, file_of.
  destruct (isfile os (default_path os self n)) eqn:E; [|done]. cbn. eauto.
Qed.

Lemma _find_ini_value_gains (self0 self : INIConfigLoader) (n p s k : string) :
  file_of os self0 n p ->
  gains os (file_of os self0 n) self (_find_ini_value os p s k self).2.
Proof.
  intros Hp. rewrite _find_ini_value_state.
  apply (gains_weaken (eq p)); [by intros q <-|]. apply _get_parser_gains.
Qed.

Lemma _get_ini_section_gains (self0 self : INIConfigLoader) (n p s : string) :
  file_of os self0 n p ->
  gains os (file_of os self0 n) self (_get_ini_section os p s self).2.
Proof.
  intros Hp. rewrite _get_ini_section_state.
  apply (gains_weaken (eq p)); [by intros q <-|]. apply _get_parser_gains.
Qed.

Local Ltac settle :=
  cbn;
  repeat (match goal with
          | |- context [if ?b then _ else _] => destruct b
          end; cbn);
  eauto using gains_refl, gains_trans.

Lemma get_value_gains (self : INIConfigLoader) (n s k : string) :
  gains os (file_of os self n) self (get_value os n s k self).2.
Proof.
  unfold get_value, bind.
  rewrite _find_ini_default_run, _find_ini_custom_run.
  pose proof (located_custom self n) as Hc.
  pose proof (located_default self n) as Hd.
  set (d := locate os (default_path os self n)) in *.
  set (c := locate os (custom_path os self n)) in *.
  destruct (truthy c).
  - pose proof (_find_ini_value_gains self self n _ s k (Hc eq_refl)) as G1.
    destruct (_find_ini_value os (str_of c) s k self) as [[v|e] s1];
      cbn in G1; [|exact G1].
    destruct (truthy d).
    + pose proof (_find_ini_value_gains self s1 n _ s k (Hd eq_refl)) as G2.
      destruct (negb (truthy v)); cbn.
      * destruct (_find_ini_value os (str_of d) s k s1) as [[v2|e2] s2];
          cbn in G2; settle.
      * settle.
    + rewrite andb_false_r. settle.
  - destruct (truthy d).
    + pose proof (_find_ini_value_gains self self n _ s k (Hd eq_refl)) as G1.
      destruct (_find_ini_value os (str_of d) s k self) as [[v|e] s1];
        cbn in G1; settle.
    + settle.
Qed.

Lemma get_section_values_gains (self : INIConfigLoader) (n s : string) :
  gains os (file_of os self n) self (get_section_values os n s self).2.
Proof.
  unfold get_section_values, bind.
  rewrite _find_ini_default_run, _find_ini_custom_run.
  pose proof (located_custom self n) as Hc.
  pose proof (located_default self n) as Hd.
  set (d := locate os (default_path os self n)) in *.
  set (c := locate os (custom_path os self n)) in *.
  destruct (truthy d).
  - pose proof (_get_ini_section_gains self self n _ s (Hd eq_refl)) as G1.
    destruct (_get_ini_section os (str_of d) s self) as [[m|e] s1];
      cbn in G1; [|exact G1].
    cbn. destruct (truthy c).
    + pose proof (_get_ini_section_gains self s1 n _ s (Hc eq_refl)) as G2.
      destruct (_get_ini_section os (str_of c) s s1) as [[m2|e2] s2];
        cbn in G2; settle.
    + settle.
  - cbn. destruct (truthy c).
    + pose proof (_get_ini_section_gains self self n _ s (Hc eq_refl)) as G1.
      destruct (_get_ini_section os (str_of c) s self) as [[m2|e2] s2];
        cbn in G1; settle.
    + settle.
Qed.

End Footprint.

(** X4.  A call of [get_value] or of [get_section_values] for a name changes
    nothing in the loader but the parser cache, and there it only adds: an
    entry that differs after the call was absent before, sits at the path of
    the custom or of the default file of that name, which is a file, and
    holds what reading that file gives.  So no other name's files are
    parsed, no missing file is read, no entry is replaced or dropped, and a
    file that fails to parse leaves no entry behind. *)
Theorem call_footprint (os : OS) (self : INIConfigLoader) (r : request) :
  let self' := (perform os r self).2 in
  let n := match r with GetValue n _ _ | GetSectionValues n _ => n end in
  configs_path self' = configs_path self
  /\ config_ext self' = config_ext self
  /\ default_ext self' = default_ext self
  /\ forall q,
       parsers self' !! q <> parsers self !! q ->
       isfile os q = true
       /\ (q = custom_path os self n \/ q = default_path os self n)
       /\ parsers self !! q = None
       /\ exists parser,
            read os q = Ok parser /\ parsers self' !! q = Some parser.
Proof.
  cbn zeta.
  destruct (perform_run os self r) as (s1 & E & (H1 & H2 & H3 & _)).
  rewrite E. cbn. split; [done|]. split; [done|]. split; [done|].
  assert (s1 = (perform os r self).2) as -> by (by rewrite E).
  intros q Hq.
  assert (gains os
            (file_of os self
               match r with GetValue n _ _ | GetSectionValues n _ => n end)
            self (perform os r self).2) as G.
  { destruct r as [n s k|n s]; unfold perform, bind.
    - pose proof (get_value_gains os self n s k) as G.
      by destruct (get_value os n s k self) as [[v|e] s2].
    - pose proof (get_section_values_gains os self n s) as G.
      by destruct (get_section_values os n s self) as [[v|e] s2]. }
  destruct (G q) as [Hsame|((Hfile & Hpath) & Hnone & parser & Hread & Hnew)];
    [done|].
  split; [done|]. split; [done|]. split; [done|]. by exists parser.
Qed.

Lemma call_footprint_witness :
  parsers (perform Broken.posix (GetValue "app" "server" "port") Example.loader).2
    !! "conf/app.ini" = None
  /\ parsers (perform Example.posix (GetValue "app" "server" "port") Example.loader).2
       !! "conf/web.ini" = None.
Proof.
  split; [by vm_compute|].
  destruct (call_footprint Example.posix Example.loader
              (GetValue "app" "server" "port")) as (_ & _ & _ & Hq).
  destruct (parsers (perform Example.posix (GetValue "app" "server" "port")
                       Example.loader).2 !! "conf/web.ini") as [parser|] eqn:E;
    [|done].
  destruct (Hq "conf/web.ini") as (_ & [Hp|Hp] & _).
  - rewrite E. discriminate.
  - by vm_compute in Hp.
  - by vm_compute in Hp.
Defined.

(** ** Edited files and the cache *)

Lemma lookup_value_local (view view' : string -> res ConfigParser)
    (d c : option string) (n s k : string) :
  (truthy c = true -> view (str_of c) = view' (str_of c)) ->
  (truthy d = true -> view (str_of d) = view' (str_of d)) ->
  lookup_value view d c n s k = lookup_value view' d c n s k.
Proof.
  intros Hc Hd. unfold lookup_value, layer_value.
  destruct (truthy c), (truthy d);
    rewrite ?(Hc eq_refl), ?(Hd eq_refl); try reflexivity.
  destruct (view' (str_of c)) as [parser|e]; cbn; [|done].
  destruct (parser_value parser s k) as [value|e]; cbn; [|done].
  by rewrite andb_false_r.
Qed.

Lemma lookup_section_local (view view' : string -> res ConfigParser)
    (d c : option string) (n s : string) :
  (truthy c = true -> view (str_of c) = view' (str_of c)) ->
  (truthy d = true -> view (str_of d) = view' (str_of d)) ->
  lookup_section view d c n s = lookup_section view' d c n s.
Proof.
  intros Hc Hd. unfold lookup_section, layer_section.
  destruct (truthy c), (truthy d);
    rewrite ?(Hc eq_refl), ?(Hd eq_refl); reflexivity.
Qed.

Lemma seen_cached (os os' : OS) (self : INIConfigLoader) (p : string) :
  is_Some (parsers self !! p) -> seen os' self p = seen os self p.
Proof. intros [parser E]. by rewrite !seen_lookup, E. Qed.

Lemma truthy_locate (os : OS) (p : string) :
  truthy (locate os p) = true ->
  isfile os p = true /\ str_of (locate os p) = p.
Proof. unfold locate. by destruct (isfile os p). Qed.

Lemma locate_same_files (os os' : OS) (p : string) :
  isfile os' p = isfile os p -> locate os' p = locate os p.
Proof. unfold locate. by intros ->. Qed.

(** X5.  There is no invalidation.  Once the files of a name that exist are
    in the parser cache, neither operation looks at their contents again:
    on a system that differs only in what the files hold (the same
    separator, the same two files present or absent) every call for that
    name gives the result it gives on the original system. *)
Theorem edits_not_observed (os os' : OS) (self : INIConfigLoader) (n : string) :
  sep os' = sep os ->
  isfile os' (custom_path os self n) = isfile os (custom_path os self n) ->
  isfile os' (default_path os self n) = isfile os (default_path os self n) ->
  (isfile os (custom_path os self n) = true ->
   is_Some (parsers self !! custom_path os self n)) ->
  (isfile os (default_path os self n) = true ->
   is_Some (parsers self !! default_path os self n)) ->
  (forall s k, (get_value os' n s k self).1 = (get_value os n s k self).1)
  /\ (forall s,
        (get_section_values os' n s self).1 = (get_section_values os n s self).1).
Proof.
  intros Hsep Hfc Hfd Hcc Hcd.
  assert (custom_path os' self n = custom_path os self n) as Hpc
    by (unfold custom_path; by rewrite Hsep).
  assert (default_path os' self n = default_path os self n) as Hpd
    by (unfold default_path; by rewrite Hsep).
  assert (truthy (locate os (custom_path os self n)) = true ->
          seen os' self (str_of (locate os (custom_path os self n))) =
          seen os self (str_of (locate os (custom_path os self n)))) as Hvc.
  { intros [Hf ->]%truthy_locate. by apply seen_cached, Hcc. }
  assert (truthy (locate os (default_path os self n)) = true ->
          seen os' self (str_of (locate os (default_path os self n))) =
          seen os self (str_of (locate os (default_path os self n)))) as Hvd.
  { intros [Hf ->]%truthy_locate. by apply seen_cached, Hcd. }
  split.
  - intros s k.
    destruct (get_value_run os' self n s k) as (s1 & -> & _).
    destruct (get_value_run os self n s k) as (s2 & -> & _). cbn.
    rewrite Hpc, Hpd, (locate_same_files os os' _ Hfc),
      (locate_same_files os os' _ Hfd).
    by apply lookup_value_local.
  - intros s.
    destruct (get_section_values_run os' self n s) as (s1 & -> & _).
    destruct (get_section_values_run os self n s) as (s2 & -> & _). cbn.
    rewrite Hpc, Hpd, (locate_same_files os os' _ Hfc),
      (locate_same_files os os' _ Hfd).
    by apply lookup_section_local.
Qed.

Lemma edits_not_observed_witness :
  (get_value Edited.posix "app" "server" "port"
     (after Example.posix [GetSectionValues "app" "server"] Example.loader)).1 =
    Ok "8080"
  /\ (get_value Edited.posix "app" "server" "port" Example.loader).1 = Ok "9999".
Proof.
  split; [|by vm_compute].
  destruct (edits_not_observed Example.posix Edited.posix
              (after Example.posix [GetSectionValues "app" "server"] Example.loader)
              "app") as [Hv _].
  - by vm_compute.
  - by vm_compute.
  - by vm_compute.
  - intros _. vm_compute. by eexists.
  - intros _. vm_compute. by eexists.
  - rewrite Hv. by vm_compute.
Defined.

(** ** The exceptions that leave the operations *)

Section Exceptions.

Lemma lookup_value_layered (view : string -> res ConfigParser)
    (d c : option string) (n s k : string) :
  lookup_value view d c n s k =
    (value ← layered_value view d c s k;
     if negb (truthy value) then
       if negb (truthy d) then Raise (default_not_found n)
       else Raise (value_not_found n s k)
     else Ok (str_of value)).
Proof. reflexivity. Qed.

Lemma interpolate_loop_raises
    (o s : string) (map : gmap string string) (deeper : string -> res string) :
  (forall v e, deeper v = Raise e -> interpolation_error e) ->
  forall rest st e,
    interpolate_loop o s map deeper st rest = Raise e -> interpolation_error e.
Proof.
  intros Hdeeper. induction rest as [|c r IH]; intros st e; cbn.
  - destruct st; intros [= <-]; done.
  - destruct st as [| |acc|name].
    + destruct (Ascii.eqb c "%"); [apply IH|].
      intros H%fmap_Raise. eauto.
    + destruct (Ascii.eqb c "%"); [intros H%fmap_Raise; eauto|].
      destruct (Ascii.eqb c "("); [apply IH | by intros [= <-]].
    + destruct (Ascii.eqb c ")"); [|apply IH].
      destruct acc; [by intros [= <-] | apply IH].
    + destruct (Ascii.eqb c "s"); [|by intros [= <-]].
      destruct (map !! optionxform name) as [v|]; [|by intros [= <-]].
      destruct (has_percent v).
      * destruct (deeper v) as [v'|e'] eqn:Hv; cbn.
        -- intros H%fmap_Raise. eauto.
        -- intros [= <-]. eauto.
      * cbn. intros H%fmap_Raise. eauto.
Qed.

Lemma before_get_raises (s o v : string) (d : gmap string string) (e : exn) :
  before_get s o v d = Raise e -> interpolation_error e.
Proof.
  unfold before_get. generalize MAX_INTERPOLATION_DEPTH. intros fuel.
  revert v e. induction fuel as [|fuel IH]; intros v e; cbn.
  - by intros [= <-].
  - apply interpolate_loop_raises. exact IH.
Qed.

Lemma get_raises (parser : ConfigParser) (s k : string) (e : exn) :
  get parser s k = Raise e ->
  e = NoSectionError s \/ e = NoOptionError (optionxform k) s
  \/ interpolation_error e.
Proof.
  unfold get. intros [H|(d & _ & H)]%bind_Raise.
  - unfold _unify_values in H.
    destruct (_sections parser !! s); [done|].
    case_bool_decide; [done|]. left. by injection H as <-.
  - destruct (d !! optionxform k) as [value|].
    + right; right. by apply before_get_raises in H.
    + right; left. by injection H as <-.
Qed.

Lemma parser_value_raises (parser : ConfigParser) (s k : string) (e : exn) :
  parser_value parser s k = Raise e -> interpolation_error e.
Proof.
  unfold parser_value. destruct (get parser s k) as [v|e'] eqn:Hget; [done|].
  apply get_raises in Hget as [->|[->|Hi]]; [done..|].
  destruct e'; try done; by intros [= <-].
Qed.

(** Where the proxy has an option, [get] finds it. *)
Lemma get_has_option (parser : ConfigParser) (s k : string)
    (sd : gmap string string) (e : exn) :
  _sections parser !! s = Some sd ->
  has_option parser s k = true ->
  get parser s k = Raise e -> interpolation_error e.
Proof.
  intros Hs Hopt Hget. unfold get, _unify_values in Hget. rewrite Hs in Hget.
  cbn in Hget.
  destruct ((sd ∪ _defaults parser) !! optionxform k) as [v|] eqn:Hk;
    [by apply before_get_raises in Hget|].
  exfalso. apply lookup_union_None in Hk as [Hk1 Hk2].
  unfold has_option in Hopt. rewrite Hs, Hk1, Hk2 in Hopt.
  by destruct (negb _ || _).
Qed.

Lemma proxy_items_raises (parser : ConfigParser) (s : string)
    (sd : gmap string string) (e : exn) :
  _sections parser !! s = Some sd ->
  proxy_items parser s = Raise e ->
  interpolation_error e \/ exists key, e = KeyError key.
Proof.
  intros Hs. unfold proxy_items.
  assert (exists opts, proxy_options parser s = Ok opts) as [opts ->].
  { unfold proxy_options, options. rewrite Hs. case_bool_decide; eauto. }
  cbn. revert e. apply (map_fold_weak_ind
    (fun (r : res (gmap string string)) (_ : gmap string string) =>
       forall e, r = Raise e ->
                 interpolation_error e \/ exists key, e = KeyError key)).
  - done.
  - intros key v m r _ IH e.
    destruct r as [d|e']; cbn; [|by intros [= <-]; eauto].
    unfold proxy_getitem. destruct (has_option parser s key) eqn:Hopt; cbn.
    + destruct (get parser s key) eqn:Hget; cbn; [done|].
      intros [= <-]. left. eauto using get_has_option.
    + intros [= <-]. eauto.
Qed.

Lemma parser_section_raises (parser : ConfigParser) (s : string) (e : exn) :
  parser_section parser s = Raise e ->
  interpolation_error e \/ exists key, e = KeyError key.
Proof.
  unfold parser_section, has_section.
  case_bool_decide as Hs; [|done]. destruct Hs as [sd Hs].
  by apply proxy_items_raises with sd.
Qed.

Variable os : OS.

Lemma seen_raises (self : INIConfigLoader) (p : string) (e : exn) :
  seen os self p = Raise e -> read_error e.
Proof.
  rewrite seen_lookup. destruct (parsers self !! p); [done|].
  unfold read. destruct (files os !! p) as [[parser|what]|]; try done.
  by intros [= <-].
Qed.

Lemma layer_value_raises (self : INIConfigLoader) (p s k : string) (e : exn) :
  layer_value (seen os self) p s k = Raise e ->
  read_error e \/ interpolation_error e.
Proof.
  unfold layer_value. intros [H|(parser & _ & H)]%bind_Raise.
  - left. by apply seen_raises in H.
  - right. by apply parser_value_raises in H.
Qed.

Lemma layer_section_raises (self : INIConfigLoader) (p s : string) (e : exn) :
  layer_section (seen os self) p s = Raise e ->
  read_error e \/ interpolation_error e \/ exists key, e = KeyError key.
Proof.
  unfold layer_section. intros [H|(parser & _ & H)]%bind_Raise.
  - left. by apply seen_raises in H.
  - right. by apply parser_section_raises in H.
Qed.

Lemma layered_value_raises
    (self : INIConfigLoader) (d c : option string) (s k : string) (e : exn) :
  layered_value (seen os self) d c s k = Raise e ->
  read_error e \/ interpolation_error e.
Proof.
  unfold layered_value. destruct (truthy c).
  - intros [H|(value & _ & H)]%bind_Raise; [by apply layer_value_raises in H|].
    destruct (negb (truthy value) && truthy d); [|done].
    by apply layer_value_raises in H.
  - destruct (truthy d); [|done]. apply layer_value_raises.
Qed.

End Exceptions.

(** X6.  An exception that leaves [get_value] is the missing-default error
    (and then the default file is absent), the missing-key error (and then
    the default file is there), a failure to read one of the files, or an
    interpolation error of the library; the same holds of
    [get_section_values] with the missing-section error, to which a
    [KeyError] of the section proxy is added.  In particular
    [NoSectionError] and [NoOptionError] never reach the caller of either
    operation. *)
Theorem escaping_exceptions
    (os : OS) (self : INIConfigLoader) (n s k : string) (e : exn) :
  ((get_value os n s k self).1 = Raise e ->
   (e = default_not_found n /\ isfile os (default_path os self n) = false)
   \/ (e = value_not_found n s k /\ isfile os (default_path os self n) = true)
   \/ read_error e \/ interpolation_error e)
  /\ ((get_section_values os n s self).1 = Raise e ->
      (e = default_not_found n /\ isfile os (default_path os self n) = false)
      \/ (e = section_not_found n s /\ isfile os (default_path os self n) = true)
      \/ read_error e \/ interpolation_error e \/ exists key, e = KeyError key).
Proof.
  assert (truthy (locate os (default_path os self n)) =
            isfile os (default_path os self n)) as Hd.
  { unfold locate. destruct (isfile os _); [apply truthy_path | done]. }
  split.
  - destruct (get_value_run os self n s k) as (s1 & -> & _). cbn.
    rewrite lookup_value_layered.
    intros [H|(value & _ & H)]%bind_Raise.
    + apply layered_value_raises in H. tauto.
    + rewrite Hd in H. destruct (negb (truthy value)); [|done].
      destruct (isfile os _); cbn in H; injection H as <-; tauto.
  - destruct (get_section_values_run os self n s) as (s1 & -> & _). cbn.
    unfold lookup_section. rewrite Hd.
    intros [H|(r1 & _ & [H|(r2 & _ & H)]%bind_Raise)]%bind_Raise.
    + destruct (isfile os _); [|done].
      apply bind_Raise in H as [H|(? & _ & H)]; [|done].
      apply layer_section_raises in H. tauto.
    + destruct (truthy (locate os (custom_path os self n)));
        [|discriminate H].
      apply bind_Raise in H as [H|(? & _ & H)]; [|done].
      apply layer_section_raises in H. tauto.
    + destruct (negb (truthy_dict r2)); [|done].
      destruct (isfile os _); cbn in H; injection H as <-; tauto.
Qed.

Lemma escaping_exceptions_witness :
  read_error (ReadError "no section header")
  /\ (get_value Broken.posix "app" "server" "port" Example.loader).1 =
       Raise (ReadError "no section header").
Proof.
  assert ((get_value Broken.posix "app" "server" "port" Example.loader).1 =
            Raise (ReadError "no section header")) as Hrun by (by vm_compute).
  split; [|exact Hrun].
  destruct (proj1 (escaping_exceptions Broken.posix Example.loader
                     "app" "server" "port" _) Hrun)
    as [[H _]|[[H _]|[H|H]]]; [discriminate H | discriminate H | exact H | done].
Defined.

(** ** Keys are looked up in lower case *)






(** ** Files that do not parse *)

(** X8.  A custom file that exists and does not parse makes every lookup of
    its name fail, whatever the default file holds: [get_value] raises the
    exception of the read, and [get_section_values] raises too, the
    exception of the read where the default layer itself gives a section (or
    is absent). *)
Theorem malformed_custom
    (os : OS) (self : INIConfigLoader) (n s k pc : string) (e : exn) :
  coherent os self ->
  locate os (custom_path os self n) = Some pc ->
  read os pc = Raise e ->
  (get_value os n s k self).1 = Raise e
  /\ (exists e', (get_section_values os n s self).1 = Raise e')
  /\ ((locate os (default_path os self n) = None
       \/ exists pd md,
            locate os (default_path os self n) = Some pd
            /\ resource_section os pd s = Ok md) ->
      (get_section_values os n s self).1 = Raise e).
Proof.
  intros Hc Hpc Hread.
  rewrite get_value_coherent, get_section_values_coherent by done.
  unfold lookup_value, lookup_section, layer_value, layer_section.
  rewrite Hpc, (truthy_custom _ _ _ _ Hpc).
  change (str_of (Some pc)) with pc. rewrite Hread. cbn.
  split; [done|]. split.
  - match goal with
    | |- context [?m ≫= (λ _, Raise e)] => destruct m as [md|e']
    end; by eexists.
  - intros [->|(pd & md & Hpd & Hmd)]; [done|].
    rewrite Hpd, (truthy_default _ _ _ _ Hpd).
    unfold resource_section, layer_section in Hmd.
    change (str_of (Some pd)) with pd. by rewrite Hmd.
Qed.

Lemma malformed_custom_witness :
  (get_value Broken.posix "app" "server" "host" Example.loader).1 =
    Raise (ReadError "no section header")
  /\ (get_section_values Broken.posix "app" "server" Example.loader).1 =
       Raise (ReadError "no section header").
Proof.
  destruct (malformed_custom Broken.posix Example.loader
              "app" "server" "host" "conf/app.ini"
              (ReadError "no section header")) as (Hv & _ & Hs).
  - apply (coherent_uncached Broken.posix Example.loader).
  - by vm_compute.
  - by vm_compute.
  - split; [exact Hv|]. apply Hs. right.
    exists "conf/app.default.ini",
           {[ "host" := "localhost"; "port" := "8080" ]}.
    split; by vm_compute.
Defined.

(** X9.  A default file that exists and does not parse is not noticed by
    [get_value] as long as the custom file answers: the call returns the
    non-empty custom value, and raises the exception of the read only when
    the custom layer gives nothing.  [get_section_values] reads the default
    file first and always raises that exception. *)
Theorem malformed_default
    (os : OS) (self : INIConfigLoader) (n s k pc pd : string) (e : exn) :
  coherent os self ->
  locate os (custom_path os self n) = Some pc ->
  locate os (default_path os self n) = Some pd ->
  read os pd = Raise e ->
  (forall cv,
     resource_value os pc s k = Ok cv ->
     (get_value os n s k self).1 =
       (if truthy cv then Ok (str_of cv) else Raise e))
  /\ (get_section_values os n s self).1 = Raise e.
Proof.
  intros Hc Hpc Hpd Hread.
  rewrite get_section_values_coherent by done.
  unfold lookup_section, layer_section.
  rewrite Hpc, Hpd, (truthy_custom _ _ _ _ Hpc), (truthy_default _ _ _ _ Hpd).
  change (str_of (Some pd)) with pd. rewrite Hread. split; [|done].
  intros cv Hcv. rewrite get_value_coherent by done.
  unfold lookup_value.
  rewrite Hpc, Hpd, (truthy_custom _ _ _ _ Hpc), (truthy_default _ _ _ _ Hpd).
  change (str_of (Some pc)) with pc. change (str_of (Some pd)) with pd.
  unfold resource_value in Hcv. rewrite Hcv. cbn.
  unfold layer_value. rewrite Hread.
  by destruct cv as [[|c v]|].
Qed.

Lemma malformed_default_witness :
  (get_value Broken.posix "web" "server" "port" Example.loader).1 = Ok "9090"
  /\ (get_value Broken.posix "web" "server" "host" Example.loader).1 =
       Raise (ReadError "no section header")
  /\ (get_section_values Broken.posix "web" "server" Example.loader).1 =
       Raise (ReadError "no section header").
Proof.
  destruct (malformed_default Broken.posix Example.loader
              "web" "server" "port" "conf/web.ini" "conf/web.default.ini"
              (ReadError "no section header")) as (Hport & Hs).
  { apply (coherent_uncached Broken.posix Example.loader). }
  { by vm_compute. }
  { by vm_compute. }
  { by vm_compute. }
  destruct (malformed_default Broken.posix Example.loader
              "web" "server" "host" "conf/web.ini" "conf/web.default.ini"
              (ReadError "no section header")) as (Hhost & _).
  { apply (coherent_uncached Broken.posix Example.loader). }
  { by vm_compute. }
  { by vm_compute. }
  { by vm_compute. }
  split; [|split].
  - rewrite (Hport (Some "9090")); by vm_compute.
  - rewrite (Hhost None); by vm_compute.
  - exact Hs.
Defined.

(** ** What a stored option gives *)



Lemma get_stored (parser : ConfigParser) (s k : string) (sd : gmap string string) :
  _sections parser !! s = Some sd ->
  get parser s k =
    match (sd ∪ _defaults parser) !! optionxform k with
    | None => Raise (NoOptionError (optionxform k) s)
    | Some value =>
        before_get s (optionxform k) value (sd ∪ _defaults parser)
    end.
Proof. intros Hs. unfold get, _unify_values. by rewrite Hs. Qed.

Lemma get_missing_section (parser : ConfigParser) (s k : string) :
  _sections parser !! s = None -> s <> default_section ->
  get parser s k = Raise (NoSectionError s).
Proof.
  intros Hs Hne. unfold get, _unify_values.
  by rewrite Hs, bool_decide_eq_false_2.
Qed.



(** ** The section called [DEFAULT] *)

(** X11.  [get_section_values] never returns for the section name
    [DEFAULT]: the parsers do not count it among their sections, so both
    layers contribute nothing and the call raises.  ([get_value] does read
    keys of that section, as the witness shows.) *)
Theorem no_DEFAULT_section_values
    (os : OS) (self : INIConfigLoader) (n : string) :
  (forall p parser, seen os self p = Ok parser -> no_DEFAULT_section parser) ->
  exists e, (get_section_values os n default_section self).1 = Raise e.
Proof.
  intros Hwf.
  destruct (get_section_values_run os self n default_section)
    as (s1 & -> & _). cbn.
  assert (forall p,
            layer_section (seen os self) p default_section = Ok ∅
            \/ exists e, layer_section (seen os self) p default_section = Raise e)
    as Hlayer.
  { intros p. unfold layer_section.
    destruct (seen os self p) as [parser|e] eqn:Hseen; cbn; [|by eauto].
    left. unfold parser_section, has_section.
    by rewrite (Hwf p parser Hseen). }
  unfold lookup_section.
  destruct (truthy (locate os (default_path os self n))).
  - destruct (Hlayer (str_of (locate os (default_path os self n))))
      as [->|[e ->]]; cbn; [|by eauto].
    destruct (truthy (locate os (custom_path os self n))).
    + destruct (Hlayer (str_of (locate os (custom_path os self n))))
        as [->|[e ->]]; cbn; by eauto.
    + cbn. by eauto.
  - cbn. destruct (truthy (locate os (custom_path os self n))).
    + destruct (Hlayer (str_of (locate os (custom_path os self n))))
        as [->|[e ->]]; cbn; by eauto.
    + cbn. by eauto.
Qed.

Lemma no_DEFAULT_section_values_witness :
  (exists e,
     (get_section_values Defaults.posix "site" "DEFAULT" Example.loader).1 = Raise e)
  /\ (get_value Defaults.posix "site" "DEFAULT" "scheme" Example.loader).1 =
       Ok "http".
Proof.
  split; [|by vm_compute].
  apply (no_DEFAULT_section_values Defaults.posix Example.loader "site").
  intros p parser. rewrite seen_lookup. cbn. rewrite lookup_empty.
  unfold read. cbn.
  destruct (decide (p = "conf/site.default.ini")) as [->|Hne].
  - intros [= <-]. by vm_compute.
  - rewrite lookup_singleton_ne by done. intros [= <-]. by vm_compute.
Defined.

(** ** The entries of a section and the values of its keys *)

(** The dictionary [proxy_items] builds has the keys the proxy lists, each
    with the value the proxy gives for it. *)
Lemma proxy_items_Ok (parser : ConfigParser) (s : string) (m : gmap string string) :
  proxy_items parser s = Ok m ->
  exists opts,
    proxy_options parser s = Ok opts
    /\ (forall k, m !! k = None <-> opts !! k = None)
    /\ (forall k v, m !! k = Some v -> proxy_getitem parser s k = Ok v).
Proof.
  unfold proxy_items.
  destruct (proxy_options parser s) as [opts|e]; cbn; [|done].
  intros Hfold. exists opts. split; [done|]. revert m Hfold.
  apply (map_fold_weak_ind
    (fun (r : res (gmap string string)) (m0 : gmap string string) =>
       forall m, r = Ok m ->
                 (forall k, m !! k = None <-> m0 !! k = None)
                 /\ (forall k v, m !! k = Some v ->
                                 proxy_getitem parser s k = Ok v))).
  - intros m [= <-]. split; intros k; by rewrite ?lookup_empty.
  - intros key x m0 r Hfresh IH m.
    destruct r as [d|e]; cbn; [|done].
    destruct (proxy_getitem parser s key) as [v|e] eqn:G; cbn; [|done].
    intros [= <-]. destruct (IH d eq_refl) as [IH1 IH2]. split.
    + intros k. destruct (decide (key = k)) as [<-|Hne].
      * by rewrite !lookup_insert_eq.
      * by rewrite !lookup_insert_ne.
    + intros k v'. destruct (decide (key = k)) as [<-|Hne].
      * rewrite lookup_insert_eq. by intros [= <-].
      * rewrite lookup_insert_ne by done. apply IH2.
Qed.

Lemma proxy_getitem_Ok (parser : ConfigParser) (s k v : string) :
  proxy_getitem parser s k = Ok v -> get parser s k = Ok v.
Proof. unfold proxy_getitem. by destruct (has_option parser s k). Qed.

Lemma layer_section_entry
    (view : string -> res ConfigParser) (p s k v : string)
    (m : gmap string string) :
  layer_section view p s = Ok m -> m !! k = Some v ->
  layer_value view p s k = Ok (Some v).
Proof.
  unfold layer_section, layer_value.
  destruct (view p) as [parser|e]; cbn; [|done].
  unfold parser_section, parser_value.
  destruct (has_section parser s); [|by intros [= <-]].
  intros (opts & _ & _ & Hitem)%proxy_items_Ok Hk.
  by rewrite (proxy_getitem_Ok _ _ _ _ (Hitem k v Hk)).
Qed.

Lemma layer_section_no_entry
    (view : string -> res ConfigParser) (p s k : string)
    (m : gmap string string) :
  s <> default_section -> optionxform k = k ->
  layer_section view p s = Ok m -> m !! k = None ->
  layer_value view p s k = Ok None.
Proof.
  intros Hs Hk. unfold layer_section, layer_value.
  destruct (view p) as [parser|e]; cbn; [|done].
  unfold parser_section, parser_value, has_section.
  case_bool_decide as Hsec.
  - destruct Hsec as [sd Hsd].
    intros (opts & Hopts & Hdom & _)%proxy_items_Ok Hnone.
    unfold proxy_options, options in Hopts.
    rewrite bool_decide_eq_false_2, Hsd in Hopts by done.
    injection Hopts as <-. apply Hdom in Hnone.
    apply lookup_union_None in Hnone as [Hd Hown].
    rewrite (get_stored parser s k sd Hsd), Hk.
    by rewrite (lookup_union_r sd _ _ Hown), Hd.
  - intros _ _. rewrite get_missing_section; [done| |done].
    by apply eq_None_not_Some.
Qed.

Lemma bind_Ok {A B} (f : A -> res B) (m : res A) (b : B) :
  m ≫= f = Ok b -> exists a, m = Ok a /\ f a = Ok b.
Proof. destruct m as [a|e]; [eauto | done]. Qed.

Lemma lookup_section_Ok (view : string -> res ConfigParser)
    (d c : option string) (n s : string) (m : gmap string string) :
  lookup_section view d c n s = Ok m ->
  exists md mc,
    (if truthy d then layer_section view (str_of d) s else Ok ∅) = Ok md
    /\ (if truthy c then layer_section view (str_of c) s else Ok ∅) = Ok mc
    /\ m = mc ∪ md.
Proof.
  unfold lookup_section.
  intros (r1 & H1 & (r2 & H2 & H3)%bind_Ok)%bind_Ok.
  assert (r2 = m) as ->.
  { destruct (negb (truthy_dict r2)); [by destruct (negb _)|].
    by injection H3. }
  assert (exists md,
            (if truthy d then layer_section view (str_of d) s else Ok ∅) = Ok md
            /\ r1 = md) as (md & Hmd & ->).
  { destruct (truthy d).
    - apply bind_Ok in H1 as (md & -> & [= <-]). exists md.
      by rewrite (right_id_L ∅ (∪)).
    - injection H1 as <-. by exists ∅. }
  exists md. destruct (truthy c).
  - apply bind_Ok in H2 as (mc & -> & [= <-]). by exists mc.
  - injection H2 as <-. exists ∅. by rewrite (left_id_L ∅ (∪)).
Qed.

(** X12.  The two operations agree on the entries that are not empty: when
    [get_section_values] returns a dictionary, every key of it (a lower-case
    key, of a section other than [DEFAULT]) that it maps to a non-empty
    string is a key for which [get_value] returns that same string. *)
Theorem section_entries_are_values
    (os : OS) (self : INIConfigLoader) (n s k v : string)
    (m : gmap string string) :
  s <> default_section ->
  optionxform k = k ->
  (get_section_values os n s self).1 = Ok m ->
  m !! k = Some v ->
  v <> EmptyString ->
  (get_value os n s k self).1 = Ok v.
Proof.
  intros Hs Hk Hsec Hm Hv.
  destruct (get_section_values_run os self n s) as (s1 & E1 & _).
  rewrite E1 in Hsec. cbn in Hsec.
  destruct (get_value_run os self n s k) as (s2 & -> & _). cbn.
  set (view := seen os self) in *.
  set (d := locate os (default_path os self n)) in *.
  set (c := locate os (custom_path os self n)) in *.
  apply lookup_section_Ok in Hsec as (md & mc & Hmd & Hmc & ->).
  unfold lookup_value.
  apply lookup_union_Some_raw in Hm as [Hm|[Hmc0 Hmd0]].
  - rename Hm into Hk1. destruct (truthy c) eqn:Ec;
      [|injection Hmc as <-; by rewrite lookup_empty in Hk1].
    rewrite (layer_section_entry view _ s k v mc Hmc Hk1). cbn.
    by destruct v.
  - destruct (truthy d) eqn:Ed;
      [|injection Hmd as <-; by rewrite lookup_empty in Hmd0].
    pose proof (layer_section_entry view _ s k v md Hmd Hmd0) as Hdv.
    destruct (truthy c) eqn:Ec.
    + rewrite (layer_section_no_entry view _ s k mc Hs Hk Hmc Hmc0).
      cbn. rewrite Hdv. cbn. by destruct v.
    + rewrite Hdv. cbn. by destruct v.
Qed.

Lemma section_entries_are_values_witness :
  (get_section_values Example.posix "web" "server" Example.loader).1 =
    Ok {[ "port" := "9090" ]}
  /\ (get_value Example.posix "web" "server" "port" Example.loader).1 = Ok "9090".
Proof.
  assert ((get_section_values Example.posix "web" "server" Example.loader).1 =
            Ok {[ "port" := "9090" ]}) as Hsec by (by vm_compute).
  split; [exact Hsec|].
  apply (section_entries_are_values Example.posix Example.loader
           "web" "server" "port" "9090" {[ "port" := "9090" ]});
    [discriminate | reflexivity | exact Hsec | by vm_compute | discriminate].
Defined.

(** ** Where a result comes from *)

(** X13.  [get_value] invents nothing: a value it returns is the value the
    custom file holds for [(section, key)], or it is the value the default
    file holds while the custom layer gives nothing (no custom file, no such
    key, or an empty value). *)
Theorem returned_value_origin
    (os : OS) (self : INIConfigLoader) (n s k v : string) :
  coherent os self ->
  (get_value os n s k self).1 = Ok v ->
  (exists pc,
     locate os (custom_path os self n) = Some pc
     /\ resource_value os pc s k = Ok (Some v))
  \/ (exists pd cv,
        locate os (default_path os self n) = Some pd
        /\ resource_value os pd s k = Ok (Some v)
        /\ custom_value os self n s k = Ok cv
        /\ truthy cv = false).
Proof.
  intros Hc. rewrite get_value_coherent by done.
  unfold lookup_value, custom_value, resource_value.
  assert (forall x : option string,
            (if negb (truthy x)
             then if negb (truthy (locate os (default_path os self n)))
                  then Raise (default_not_found n)
                  else Raise (value_not_found n s k)
             else Ok (str_of x)) = Ok v -> x = Some v) as Hfinal.
  { intros x. destruct (truthy x) eqn:Ex; cbn.
    - intros [= <-]. by apply truthy_str_of.
    - by destruct (negb _). }
  destruct (locate os (custom_path os self n)) as [pc|] eqn:Hpc.
  - rewrite (truthy_custom _ _ _ _ Hpc). change (str_of (Some pc)) with pc.
    destruct (layer_value (read os) pc s k) as [cv|e] eqn:Hcv; cbn; [|done].
    destruct (truthy cv) eqn:Ecv; cbn.
    + intros ->%Hfinal. left. by exists pc.
    + destruct (locate os (default_path os self n)) as [pd|] eqn:Hpd.
      * rewrite (truthy_default _ _ _ _ Hpd). change (str_of (Some pd)) with pd.
        destruct (layer_value (read os) pd s k) as [dv|e] eqn:Hdv; cbn; [|done].
        intros H. right. exists pd, cv.
        destruct (truthy dv) eqn:Edv; cbn in H; [|done].
        injection H as <-. by destruct (truthy_str_of dv Edv) as [<- _].
      * cbn. by rewrite Ecv.
  - cbn. destruct (locate os (default_path os self n)) as [pd|] eqn:Hpd; [|done].
    rewrite (truthy_default _ _ _ _ Hpd). change (str_of (Some pd)) with pd.
    destruct (layer_value (read os) pd s k) as [dv|e] eqn:Hdv; cbn; [|done].
    intros H. right. exists pd, None.
    destruct (truthy dv) eqn:Edv; cbn in H; [|done].
    injection H as <-. by destruct (truthy_str_of dv Edv) as [<- _].
Qed.

Lemma returned_value_origin_witness :
  (exists pc,
     locate Example.posix (custom_path Example.posix Example.loader "app") = Some pc
     /\ resource_value Example.posix pc "server" "port" = Ok (Some "8080"))
  \/ (exists pd cv,
        locate Example.posix (default_path Example.posix Example.loader "app")
          = Some pd
        /\ resource_value Example.posix pd "server" "port" = Ok (Some "8080")
        /\ custom_value Example.posix Example.loader "app" "server" "port" = Ok cv
        /\ truthy cv = false).
Proof.
  apply (returned_value_origin Example.posix Example.loader
           "app" "server" "port" "8080").
  - exact example_loader_coherent.
  - by vm_compute.
Defined.

(** X14.  A dictionary [get_section_values] returns is not empty and is the
    overlay of the two layers: a key is mapped to the custom section's entry
    when the custom section has the key, and to the default section's entry
    otherwise; a layer whose file is absent, or has no such section, counts
    as empty. *)
Theorem returned_section_origin
    (os : OS) (self : INIConfigLoader) (n s : string) (m : gmap string string) :
  coherent os self ->
  (get_section_values os n s self).1 = Ok m ->
  m <> ∅
  /\ exists mc md,
       custom_section os self n s = Ok mc
       /\ match locate os (default_path os self n) with
          | Some pd => resource_section os pd s
          | None => Ok ∅
          end = Ok md
       /\ forall k,
            m !! k = match mc !! k with
                     | Some v => Some v
                     | None => md !! k
                     end.
Proof.
  intros Hc. rewrite get_section_values_coherent by done. intros Hrun.
  split.
  - intros ->. unfold lookup_section in Hrun.
    apply bind_Ok in Hrun as (r1 & _ & (r2 & _ & H)%bind_Ok).
    destruct (truthy_dict r2) eqn:E; cbn in H.
    + injection H as ->. by rewrite (proj2 (truthy_dict_empty ∅)) in E.
    + by destruct (negb _).
  - apply lookup_section_Ok in Hrun as (md & mc & Hmd & Hmc & ->).
    exists mc, md. unfold custom_section, resource_section.
    split; [|split].
    + destruct (locate os (custom_path os self n)) as [pc|] eqn:Hpc; [|done].
      by rewrite (truthy_custom _ _ _ _ Hpc) in Hmc.
    + destruct (locate os (default_path os self n)) as [pd|] eqn:Hpd; [|done].
      by rewrite (truthy_default _ _ _ _ Hpd) in Hmd.
    + intros k. rewrite lookup_union.
      by destruct (mc !! k), (md !! k).
Qed.

Lemma returned_section_origin_witness :
  {[ "host" := "localhost"; "port" := EmptyString ]} <> (∅ : gmap string string)
  /\ (get_section_values Example.posix "app" "server" Example.loader).1 =
       Ok {[ "host" := "localhost"; "port" := EmptyString ]}.
Proof.
  assert ((get_section_values Example.posix "app" "server" Example.loader).1 =
            Ok {[ "host" := "localhost"; "port" := EmptyString ]}) as Hrun
    by (by vm_compute).
  split; [|exact Hrun].
  apply (returned_section_origin Example.posix Example.loader "app" "server"
           _ example_loader_coherent Hrun).
Defined.
